(** * Layout arithmetic of the PowerPoint alignment add-in

    Shallow embedding of [alignShapes] and [arrangeShapesInOrder] from
    [src/taskpane/taskpane.ts], and of their callers [alignWithAI] and
    [requestArrangement].

    Modelling choices.
    - A JavaScript [number] is an IEEE 754 binary64 value: the primitive
      type [float], whose operations [+], [-], [*], [/] round to nearest,
      ties to even, as JavaScript's do.  Equality of numbers in the
      statements below is equality of binary64 values.  A decimal literal
      denotes the nearest binary64 value, as it does in JavaScript.
    - Sums are accumulated in the order in which the source accumulates
      them, and every formula is written with the association that the
      source uses: binary64 addition is not associative.
    - The shape objects handed out by the host ([selectedShapes.items],
      [allShapes.items]) form a heap [list Shape.t]; an array of shape
      objects is a list of references (positions in that heap), and an
      assignment [shape.left = v] is an in-place update of the heap.
    - [console.log] / [console.warn] calls are collected in an output list.
    - [Map<string, Shape>] is a [gmap string nat] from ids to references.
    - Both functions divide only after their guard [length < 2] has failed,
      by [length] or by [length - 1], so no division by zero is reached. *)

From Stdlib Require Import ZArith Lia String Floats.
From Stdlib Require Uint63.
From stdpp Require Import gmap strings list numbers pretty sorting.

Set Warnings "-inexact-float".
Open Scope float_scope.

(** ** Numbers *)

(** [===] on numbers of equal bits; all NaNs are one value. *)
#[global] Instance float_eq_dec : EqDecision float.
Proof.
  intros x y. destruct (PrimFloat.Leibniz.eqb x y) eqn:E.
  - left. by apply FloatAxioms.Leibniz.eqb_spec.
  - right. intros H. apply FloatAxioms.Leibniz.eqb_spec in H. congruence.
Defined.

#[global] Instance float_inhabited : Inhabited float := populate 0.

(** ** Data model *)

(** [ShapeInfo] / the loaded fields of a [PowerPoint.Shape]. *)
Module Shape.
Record t : Type := mk {
  id : string;
  left : float;
  top : float;
  width : float;
  height : float
}.

(** [shape.left = v] *)
Definition set_left (v : float) (s : t) : t :=
  mk (id s) v (top s) (width s) (height s).

(** [shape.top = v] *)
Definition set_top (v : float) (s : t) : t :=
  mk (id s) (left s) v (width s) (height s).
End Shape.

#[global] Instance Shape_eq_dec : EqDecision Shape.t.
Proof. solve_decision. Defined.

#[global] Instance Shape_inhabited : Inhabited Shape.t :=
  populate (Shape.mk EmptyString 0 0 0 0).

(** Arguments of one console call. *)
Inductive console_arg : Type :=
| Str (s : string)
| StrArray (l : list string).

(** One call of [console.log] or [console.warn]. *)
Inductive console_entry : Type :=
| console_log (args : list console_arg)
| console_warn (args : list console_arg).

#[global] Instance console_arg_eq_dec : EqDecision console_arg.
Proof. solve_decision. Defined.

#[global] Instance console_entry_eq_dec : EqDecision console_entry.
Proof. solve_decision. Defined.

(** The heap of shape objects and references into it. *)
Abbreviation heap := (list Shape.t).
Abbreviation ref := nat.

(** The state threaded through a call: the shape objects and the console. *)
Abbreviation outcome := (heap * list console_entry)%type.

(** [array.length] as a JavaScript number (exact: a length is below 2^32). *)
Definition length_num {A} (l : list A) : float :=
  of_uint63 (Uint63.of_Z (Z.of_nat (length l))).

(** ** Array helpers *)

(** How [sort] reads the number [v] returned by its comparator for the
    pair (earlier, later): a NaN counts as [+0], and the earlier element
    stays in front when the number is not above 0. *)
Definition sort_le (v : float) : bool := is_nan v || (v <=? 0).

(** [Array.prototype.sort(compareFn)]: the sort is stable, and for a
    consistent comparator its result is determined; it is modelled by a
    stable insertion sort.  [a] ends before [b] when [compareFn a b < 0];
    elements that compare equal keep their order.  (For a comparator that
    is not consistent, such as [a - b] on arrays holding NaN, the order is
    left to the implementation, and this is one of the allowed results.) *)
Fixpoint sort_insert {A} (compareFn : A → A → float) (x : A) (l : list A) : list A :=
  match l with
  | [] => [x]
  | y :: l' =>
      if sort_le (compareFn y x)
      then y :: sort_insert compareFn x l'
      else x :: l
  end.

Definition sort {A} (compareFn : A → A → float) (l : list A) : list A :=
  fold_left (λ acc x, sort_insert compareFn x acc) l [].

(** [array.reduce((sum, s) => f(sum, s), init)] *)
Definition reduce {A B} (f : B → A → B) (init : B) (l : list A) : B :=
  fold_left f l init.

(** The array of all objects of a heap, [items], as references. *)
Definition refs_of (items : heap) : list ref := seq 0 (length items).

(** ** The unordered operation: [alignShapes] *)

(** [items] is [selectedShapes.items] after loading. *)
Definition alignShapes (alignmentType : string) (items : heap) : outcome :=
  if decide (length items < 2)%nat then
    (items, [console_log [Str "Need at least 2 shapes to align"]])
  else
    let shapes := refs_of items in
    if String.eqb alignmentType "horizontal_center" then
      let avgCenterX :=
        reduce (λ sum r, let s := items !!! r in
                         sum + Shape.left s + Shape.width s / 2) 0 shapes
        / length_num shapes in
      (fold_left (λ h r,
         alter (λ shape, Shape.set_left (avgCenterX - Shape.width shape / 2) shape) r h)
         shapes items, [])
    else if String.eqb alignmentType "vertical_center" then
      let avgCenterY :=
        reduce (λ sum r, let s := items !!! r in
                         sum + Shape.top s + Shape.height s / 2) 0 shapes
        / length_num shapes in
      (fold_left (λ h r,
         alter (λ shape, Shape.set_top (avgCenterY - Shape.height shape / 2) shape) r h)
         shapes items, [])
    else if String.eqb alignmentType "horizontal_distribute" then
      let slideWidth : float := 960 in
      let margin : float := 40 in
      let availableWidth := slideWidth - 2 * margin in
      let totalShapeWidth :=
        reduce (λ sum r, sum + Shape.width (items !!! r)) 0 shapes in
      let gap := (availableWidth - totalShapeWidth) / (length_num shapes - 1) in
      let sorted :=
        sort (λ a b, Shape.left (items !!! a) - Shape.left (items !!! b)) shapes in
      (snd (fold_left (λ '(currentLeft, h) r,
              let h1 := alter (Shape.set_left currentLeft) r h in
              (currentLeft + (Shape.width (h1 !!! r) + gap), h1))
            sorted (margin, items)), [])
    else if String.eqb alignmentType "vertical_distribute" then
      let slideHeight : float := 540 in
      let margin : float := 40 in
      let availableHeight := slideHeight - 2 * margin in
      let totalShapeHeight :=
        reduce (λ sum r, sum + Shape.height (items !!! r)) 0 shapes in
      let gap := (availableHeight - totalShapeHeight) / (length_num shapes - 1) in
      let sorted :=
        sort (λ a b, Shape.top (items !!! a) - Shape.top (items !!! b)) shapes in
      (snd (fold_left (λ '(currentTop, h) r,
              let h1 := alter (Shape.set_top currentTop) r h in
              (currentTop + (Shape.height (h1 !!! r) + gap), h1))
            sorted (margin, items)), [])
    else (items, []).

(** ** The ordered operation: [arrangeShapesInOrder] *)

(** [const shapeMap = new Map(); for (shape of items) shapeMap.set(shape.id, shape)] *)
Definition shapeMap (items : heap) : gmap string ref :=
  fold_left (λ m r, <[Shape.id (items !!! r) := r]> m) (refs_of items) ∅.

(** The loop over [shapeIds] that fills [orderedShapes] and warns about
    every identifier that [shapeMap.get] does not find. *)
Definition orderedShapes_loop (m : gmap string ref) (shapeIds : list string)
  : list ref * list console_entry :=
  fold_left (λ '(orderedShapes, out) id,
     match m !! id with
     | Some shape => (orderedShapes ++ [shape], out)
     | None =>
         (orderedShapes,
          out ++ [console_warn [Str ("Shape with id " +:+ id +:+ " not found")]])
     end) shapeIds ([], []).

(** [items] is [allShapes.items] after loading. *)
Definition arrangeShapesInOrder (shapeIds : list string) (alignment : string)
  (items : heap) : outcome :=
  let out0 :=
    [console_log [Str ("Arranging " +:+ pretty (length shapeIds)
                       +:+ " shapes with alignment: " +:+ alignment)];
     console_log [Str "Shape order:"; StrArray shapeIds]] in
  let '(orderedShapes, warnings) := orderedShapes_loop (shapeMap items) shapeIds in
  let out1 := out0 ++ warnings in
  if decide (length orderedShapes < 2)%nat then
    (items, out1 ++ [console_log [Str "Need at least 2 shapes to arrange"]])
  else
    let avgCenterY :=
      reduce (λ sum r, let s := items !!! r in
                       sum + Shape.top s + Shape.height s / 2) 0 orderedShapes
      / length_num orderedShapes in
    let final :=
      if String.eqb alignment "horizontal_distribute" then
        let slideWidth : float := 960 in
        let margin : float := 40 in
        let availableWidth := slideWidth - 2 * margin in
        let totalShapeWidth :=
          reduce (λ sum r, sum + Shape.width (items !!! r)) 0 orderedShapes in
        let gap := (availableWidth - totalShapeWidth) / (length_num orderedShapes - 1) in
        snd (fold_left (λ '(currentLeft, h) r,
               let h1 := alter (Shape.set_left currentLeft) r h in
               let h2 := alter (λ shape,
                           Shape.set_top (avgCenterY - Shape.height shape / 2) shape) r h1 in
               (currentLeft + (Shape.width (h2 !!! r) + gap), h2))
             orderedShapes (margin, items))
      else if String.eqb alignment "vertical_distribute" then
        let slideHeight : float := 540 in
        let margin : float := 40 in
        let availableHeight := slideHeight - 2 * margin in
        let totalShapeHeight :=
          reduce (λ sum r, sum + Shape.height (items !!! r)) 0 orderedShapes in
        let gap := (availableHeight - totalShapeHeight) / (length_num orderedShapes - 1) in
        let avgCenterX :=
          reduce (λ sum r, let s := items !!! r in
                           sum + Shape.left s + Shape.width s / 2) 0 orderedShapes
          / length_num orderedShapes in
        snd (fold_left (λ '(currentTop, h) r,
               let h1 := alter (Shape.set_top currentTop) r h in
               let h2 := alter (λ shape,
                           Shape.set_left (avgCenterX - Shape.width shape / 2) shape) r h1 in
               (currentTop + (Shape.height (h2 !!! r) + gap), h2))
             orderedShapes (margin, items))
      else if String.eqb alignment "horizontal_center" then
        let avgCenterX :=
          reduce (λ sum r, let s := items !!! r in
                           sum + Shape.left s + Shape.width s / 2) 0 orderedShapes
          / length_num orderedShapes in
        fold_left (λ h r,
          alter (λ shape, Shape.set_left (avgCenterX - Shape.width shape / 2) shape) r h)
          orderedShapes items
      else if String.eqb alignment "vertical_center" then
        fold_left (λ h r,
          alter (λ shape, Shape.set_top (avgCenterY - Shape.height shape / 2) shape) r h)
          orderedShapes items
      else items in
    (final, out1 ++ [console_log [Str "Arrangement complete"]]).

(** ** Notions used to state the properties *)

(** A sum accumulated from 0, from left to right, as
    [reduce((sum, x) => sum + x, 0)] does. *)
Definition sum_list (l : list float) : float := fold_left PrimFloat.add l 0.

(** Arithmetic mean of a list of numbers. *)
Definition mean (l : list float) : float := sum_list l / length_num l.

(** Horizontal centre [left + width/2] and vertical centre [top + height/2]. *)
Definition center_x (s : Shape.t) : float := Shape.left s + Shape.width s / 2.
Definition center_y (s : Shape.t) : float := Shape.top s + Shape.height s / 2.

(** The numbers that the source calls [avgCenterX] and [avgCenterY], for
    the array [shapes]: the running sum takes the left and the half width
    of each shape in turn. *)
Definition avgCenterX (shapes : list Shape.t) : float :=
  reduce (λ sum s, sum + Shape.left s + Shape.width s / 2) 0 shapes / length_num shapes.
Definition avgCenterY (shapes : list Shape.t) : float :=
  reduce (λ sum s, sum + Shape.top s + Shape.height s / 2) 0 shapes / length_num shapes.

(** The shapes an order list resolves to, and the warnings it causes. *)
Definition orderedShapes (items : heap) (shapeIds : list string) : list ref :=
  (orderedShapes_loop (shapeMap items) shapeIds).1.
Definition warnings (items : heap) (shapeIds : list string) : list console_entry :=
  (orderedShapes_loop (shapeMap items) shapeIds).2.

(** [gap = (canvas - 2*margin - sum of extents) / (count - 1)], margin 40. *)
Definition distribute_gap (canvas : float) (extents : list float) : float :=
  (canvas - 2 * 40 - sum_list extents) / (length_num extents - 1).

(** The common shape of the four distributing loops: [place cur] is the
    assignment made to the visited object, [extent] its width or height. *)
Definition place_loop (place : float → Shape.t → Shape.t) (extent : Shape.t → float)
  (gap : float) (refs : list ref) (st : float * heap) : float * heap :=
  fold_left (λ '(cur, h) r,
     let h1 := alter (place cur) r h in
     (cur + (extent (h1 !!! r) + gap), h1)) refs st.

(** The value of [currentLeft] (or [currentTop]) when a distributing loop
    that started from [start] reaches the [k]-th of [refs]: one
    [cur + (extent + gap)] for every object before it. *)
Definition running (extent : Shape.t → float) (gap : float) (items : heap)
  (refs : list ref) (start : float) (k : nat) : float :=
  fold_left (λ cur r, cur + (extent (items !!! r) + gap)) (take k refs) start.

(** The common shape of the centring loops. *)
Definition alter_loop (f : Shape.t → Shape.t) (refs : list ref) (h : heap) : heap :=
  fold_left (λ h r, alter f r h) refs h.

(** Ascending by key, equal keys in the order of the references. *)
Definition stable_lt (key : ref → float) (a b : ref) : Prop :=
  (key a <? key b) = true ∨ ((key a =? key b) = true ∧ (a < b)%nat).

(** The four modes of the enumeration. *)
Definition known_mode (mode : string) : bool :=
  String.eqb mode "horizontal_center" || String.eqb mode "vertical_center"
  || String.eqb mode "horizontal_distribute" || String.eqb mode "vertical_distribute".

(** The warning for an identifier that is not in the map. *)
Definition warning_for (id : string) : console_entry :=
  console_warn [Str ("Shape with id " +:+ id +:+ " not found")].

(** The two console lines that open every call. *)
Definition arrange_header (shapeIds : list string) (alignment : string) : list console_entry :=
  [console_log [Str ("Arranging " +:+ pretty (length shapeIds)
                     +:+ " shapes with alignment: " +:+ alignment)];
   console_log [Str "Shape order:"; StrArray shapeIds]].

(** The console of a call that runs to its end. *)
Definition arrange_done_log (items : heap) (shapeIds : list string) (mode : string)
  : list console_entry :=
  arrange_header shapeIds mode ++ warnings items shapeIds
  ++ [console_log [Str "Arrangement complete"]].

(** [shape.left = avg - shape.width / 2] *)
Definition center_left (avg : float) (shape : Shape.t) : Shape.t :=
  Shape.set_left (avg - Shape.width shape / 2) shape.

(** [shape.top = avg - shape.height / 2] *)
Definition center_top (avg : float) (shape : Shape.t) : Shape.t :=
  Shape.set_top (avg - Shape.height shape / 2) shape.

(** [shape.left = cur; shape.top = avg - shape.height / 2] *)
Definition place_left_centered (avg cur : float) : Shape.t → Shape.t :=
  center_top avg ∘ Shape.set_left cur.

(** [shape.top = cur; shape.left = avg - shape.width / 2] *)
Definition place_top_centered (avg cur : float) : Shape.t → Shape.t :=
  center_left avg ∘ Shape.set_top cur.

(** What an assignment to [left] alone, to [top] alone, or to both leaves
    unchanged. *)
Definition same_but_left (s s' : Shape.t) : Prop :=
  Shape.id s' = Shape.id s ∧ Shape.top s' = Shape.top s
  ∧ Shape.width s' = Shape.width s ∧ Shape.height s' = Shape.height s.
Definition same_but_top (s s' : Shape.t) : Prop :=
  Shape.id s' = Shape.id s ∧ Shape.left s' = Shape.left s
  ∧ Shape.width s' = Shape.width s ∧ Shape.height s' = Shape.height s.
Definition same_size (s s' : Shape.t) : Prop :=
  Shape.id s' = Shape.id s
  ∧ Shape.width s' = Shape.width s ∧ Shape.height s' = Shape.height s.

(** ** Concrete shapes used in examples *)

(** The shapes A, B, C of the worked example. *)
Definition shapeA : Shape.t := Shape.mk "A" 500 0 50 50.
Definition shapeB : Shape.t := Shape.mk "B" 10 0 50 50.
Definition shapeC : Shape.t := Shape.mk "C" 250 0 50 50.
Definition ABC : heap := [shapeA; shapeB; shapeC].

(** Two shapes that differ in both coordinates. *)
Definition P1 : Shape.t := Shape.mk "p1" 0 0 100 50.
Definition P2 : Shape.t := Shape.mk "p2" 200 100 100 50.
Definition P12 : heap := [P1; P2].

(** Three shapes whose total width exceeds the available 880. *)
Definition Wa : Shape.t := Shape.mk "a" 700 10 1000 20.
Definition Wb : Shape.t := Shape.mk "b" 300 50 10 20.
Definition Wc : Shape.t := Shape.mk "c" 500 90 10 20.
Definition Wabc : heap := [Wa; Wb; Wc].

(** Two shapes on which centring rounds: sizes 0.1 and 0.7 at the origin. *)
Definition Fa : Shape.t := Shape.mk "a" 0 0 0.1 0.1.
Definition Fb : Shape.t := Shape.mk "b" 0 0 0.7 0.7.
Definition Fab : heap := [Fa; Fb].

(** Two shapes on which the order of the summands matters: sizes 0.5 and
    0.1, the second at 0.4. *)
Definition Ga : Shape.t := Shape.mk "a" 0 0 0.5 0.5.
Definition Gb : Shape.t := Shape.mk "b" 0.4 0.4 0.1 0.1.
Definition Gab : heap := [Ga; Gb].

(** Four shapes of sizes 1, 1, 53 and 59, for which the gap
    (880 - 114) / 3 is not a binary64 number. *)
Definition Ra : Shape.t := Shape.mk "a" 0 0 1 1.
Definition Rb : Shape.t := Shape.mk "b" 100 100 1 1.
Definition Rc : Shape.t := Shape.mk "c" 200 200 53 53.
Definition Rd : Shape.t := Shape.mk "d" 300 300 59 59.
Definition Rabcd : heap := [Ra; Rb; Rc; Rd].

(** Four shapes whose widths sum differently in selection order and in
    the order of their lefts. *)
Definition Q1 : Shape.t := Shape.mk "q1" 773.72 0 155.34 10.
Definition Q2 : Shape.t := Shape.mk "q2" 32.97 0 22.5 10.
Definition Q3 : Shape.t := Shape.mk "q3" 851.22 0 149.93 10.
Definition Q4 : Shape.t := Shape.mk "q4" 82.06 0 159.65 10.
Definition Q1234 : heap := [Q1; Q2; Q3; Q4].

(** A shape so narrow that adding its width to 40 changes nothing, and one
    that fills the available width. *)
Definition Ta : Shape.t := Shape.mk "a" 0 0 1e-20 10.
Definition Tb : Shape.t := Shape.mk "b" 0 0 880 10.
Definition Tab : heap := [Ta; Tb].

(** ** Further notions *)

(** The heap left by a distributing loop over [refs] on a canvas of extent
    [canvas]: the gap is computed from the extents of the visited objects and
    the first object is put at the margin 40. *)
Definition distribute_final (place : float → Shape.t → Shape.t) (extent : Shape.t → float)
  (canvas : float) (refs : list ref) (items : heap) : heap :=
  (place_loop place extent
     (distribute_gap canvas ((λ r, extent (items !!! r)) <$> refs))
     refs (40, items)).2.

(** ** Order keys of binary64 numbers

    Every number but NaN has a key, a triple of integers compared
    lexicographically: the class (-2 for -infinity, -1 for negative, 0 for
    both zeros, 1 for positive, 2 for +infinity), then the exponent and
    the mantissa, negated for negative numbers.  The comparisons of
    binary64 numbers are the comparisons of their keys. *)
Definition SF_key (x : spec_float) : option (Z * Z * Z) :=
  match x with
  | S754_nan => None
  | S754_zero _ => Some (0, 0, 0)%Z
  | S754_infinity false => Some (2, 0, 0)%Z
  | S754_infinity true => Some (-2, 0, 0)%Z
  | S754_finite false m e => Some (1, e, Zpos m)%Z
  | S754_finite true m e => Some (-1, - e, Zneg m)%Z
  end.

Definition float_key (x : float) : option (Z * Z * Z) := SF_key (Prim2SF x).

Definition key_lt (a b : Z * Z * Z) : Prop :=
  (a.1.1 < b.1.1 ∨ (a.1.1 = b.1.1 ∧ (a.1.2 < b.1.2 ∨ (a.1.2 = b.1.2 ∧ a.2 < b.2))))%Z.

Definition key_cmp (a b : Z * Z * Z) : comparison :=
  match (a.1.1 ?= b.1.1)%Z with
  | Eq => match (a.1.2 ?= b.1.2)%Z with Eq => (a.2 ?= b.2)%Z | c => c end
  | c => c
  end.

(** A number with sign bit [s] that is neither zero nor NaN. *)
Definition SF_signed (s : bool) (x : spec_float) : Prop :=
  match x with
  | S754_finite s' _ _ | S754_infinity s' => s' = s
  | _ => False
  end.

(** ** The callers: [alignWithAI] and [requestArrangement]

    Both talk to the backend once through [fetch] and then run one of the
    two operations above.  The backend is not part of the program: its
    answer to the one request is an input of the model, and the requests
    and console lines of a call are collected, in order, in a trace.
    Assumptions on the environment: the host calls ([PowerPoint.run]) and
    [response.text()] resolve, the selection and the slide are not changed
    by anyone else during the call, and a reply whose body parses carries
    the fields the code reads, as strings. *)

Definition BACKEND_URL : string := "https://localhost:8001".

(** [LabeledShape] *)
Module LabeledShape.
Record t : Type := mk {
  id : string;
  label : string;
  description : string;
  left : float;
  top : float;
  width : float;
  height : float
}.
End LabeledShape.

(** The parsed body of an ok reply of [/align]. *)
Module AlignResult.
Record t : Type := mk { alignment_type : string; explanation : string }.
End AlignResult.

(** The parsed body of an ok reply of [/arrange]. *)
Module ArrangeResult.
Record t : Type := mk { order : list string; alignment : string; explanation : string }.
End ArrangeResult.

(** A thrown value: an [Error] made by the code itself, or a value thrown
    by the environment, known by its conversion to a string. *)
Inductive thrown : Type :=
| js_Error (message : string)
| thrown_value (rendering : string).

(** [`${error}`]; [Error.prototype.toString] gives the name alone when the
    message is empty. *)
Definition thrown_to_string (e : thrown) : string :=
  match e with
  | js_Error message =>
      if String.eqb message EmptyString then "Error" else "Error: " +:+ message
  | thrown_value rendering => rendering
  end.

(** A [Response]: its status, its body as text, and its body parsed as
    JSON ([response.json()] rejects when the body does not parse). *)
Record Response (T : Type) : Type := mkResponse {
  status : nat;
  text : string;
  json : thrown + T
}.
Arguments mkResponse {T}.
Arguments status {T}.
Arguments text {T}.
Arguments json {T}.

(** [response.ok]: the status is in the range 200-299. *)
Definition ok {T} (response : Response T) : bool :=
  bool_decide (200 ≤ status response ≤ 299)%nat.

(** What [await fetch(...)] does: reject, or resolve with a response. *)
Inductive fetch_outcome (T : Type) : Type :=
| fetch_rejects (e : thrown)
| fetch_resolves (response : Response T).
Arguments fetch_rejects {T}.
Arguments fetch_resolves {T}.

(** Values handed to the console or sent as a request body. *)
Inductive js_value : Type :=
| js_string (s : string)
| js_strings (l : list string)
| js_shapes (shapes : heap)
| js_labeled_shapes (shapes : list LabeledShape.t)
| js_align_request (message : string) (shape_count : nat)
| js_arrange_request (user_message : string) (labeled_shapes : list LabeledShape.t)
| js_align_result (result : AlignResult.t)
| js_arrange_result (result : ArrangeResult.t)
| js_thrown (e : thrown).

Inductive console_level : Type := level_log | level_warn | level_error.

(** One observable step of a call. *)
Inductive effect : Type :=
| console_out (level : console_level) (args : list js_value)
| fetch_post (url : string) (body : js_value).

#[global] Instance LabeledShape_eq_dec : EqDecision LabeledShape.t.
Proof. solve_decision. Defined.
#[global] Instance AlignResult_eq_dec : EqDecision AlignResult.t.
Proof. solve_decision. Defined.
#[global] Instance ArrangeResult_eq_dec : EqDecision ArrangeResult.t.
Proof. solve_decision. Defined.
#[global] Instance thrown_eq_dec : EqDecision thrown.
Proof. solve_decision. Defined.
#[global] Instance js_value_eq_dec : EqDecision js_value.
Proof. solve_decision. Defined.
#[global] Instance console_level_eq_dec : EqDecision console_level.
Proof. solve_decision. Defined.
#[global] Instance effect_eq_dec : EqDecision effect.
Proof. solve_decision. Defined.

(** The console lines of the two operations, as steps of the caller. *)
Definition effect_of_arg (a : console_arg) : js_value :=
  match a with
  | Str s => js_string s
  | StrArray l => js_strings l
  end.
Definition effect_of_entry (e : console_entry) : effect :=
  match e with
  | console_log args => console_out level_log (effect_of_arg <$> args)
  | console_warn args => console_out level_warn (effect_of_arg <$> args)
  end.

(** The result of a caller: returned string, shapes, trace. *)
Abbreviation caller_outcome := (string * heap * list effect)%type.

(** The [try] block of [alignWithAI]: [inl] is a throw, [inr] a return. *)
Definition alignWithAI_try (userMessage : string)
  (reply : fetch_outcome AlignResult.t) (selected : heap)
  : (thrown + string) * heap * list effect :=
  let out1 := [console_out level_log [js_string "Getting selected shapes..."]] in
  let shapes := selected in
  let out2 := out1 ++
    [console_out level_log
       [js_string ("Found " +:+ pretty (length shapes) +:+ " shapes:"); js_shapes shapes]] in
  if decide (length shapes < 2)%nat then
    (inr "Please select at least 2 shapes to align.", selected, out2)
  else
    let out3 := out2 ++
      [console_out level_log
         [js_string ("Calling backend at " +:+ BACKEND_URL +:+ "/align...")];
       fetch_post (BACKEND_URL +:+ "/align")
         (js_align_request userMessage (length shapes))] in
    match reply with
    | fetch_rejects e => (inl e, selected, out3)
    | fetch_resolves response =>
        let out4 := out3 ++
          [console_out level_log
             [js_string ("Backend response status: " +:+ pretty (status response))]] in
        if negb (ok response) then
          let errorText := text response in
          (inl (js_Error ("Backend error: " +:+ pretty (status response)
                          +:+ " - " +:+ errorText)),
           selected,
           out4 ++ [console_out level_error
                      [js_string "Backend error response:"; js_string errorText]])
        else
          match json response with
          | inl e => (inl e, selected, out4)
          | inr result =>
              let out5 := out4 ++
                [console_out level_log [js_string "Backend result:"; js_align_result result]] in
              let '(h, out) := alignShapes (AlignResult.alignment_type result) selected in
              (inr (AlignResult.explanation result), h, out5 ++ (effect_of_entry <$> out))
          end
    end.

(** [selected] is the selection, read by [getSelectedShapes] and again by
    [alignShapes]. *)
Definition alignWithAI (userMessage : string)
  (reply : fetch_outcome AlignResult.t) (selected : heap) : caller_outcome :=
  match alignWithAI_try userMessage reply selected with
  | (inr value, h, out) => (value, h, out)
  | (inl error, h, out) =>
      ("Error: " +:+ thrown_to_string error, h,
       out ++ [console_out level_error [js_string "Alignment error:"; js_thrown error]])
  end.

(** A double quote, for the template literal of [requestArrangement]. *)
Definition dquote : string := String (Ascii.ascii_of_nat 34) EmptyString.

(** The [try] block of [requestArrangement]. *)
Definition requestArrangement_try (userMessage : string)
  (labeledShapes : list LabeledShape.t)
  (reply : fetch_outcome ArrangeResult.t) (items : heap)
  : (thrown + string) * heap * list effect :=
  let out1 :=
    [fetch_post (BACKEND_URL +:+ "/arrange")
       (js_arrange_request userMessage labeledShapes)] in
  match reply with
  | fetch_rejects e => (inl e, items, out1)
  | fetch_resolves response =>
      if negb (ok response) then
        let errorText := text response in
        (inl (js_Error ("Arrange failed: " +:+ pretty (status response)
                        +:+ " - " +:+ errorText)),
         items, out1)
      else
        match json response with
        | inl e => (inl e, items, out1)
        | inr result =>
            let out2 := out1 ++
              [console_out level_log
                 [js_string "Arrangement result:"; js_arrange_result result]] in
            let '(h, out) :=
              arrangeShapesInOrder (ArrangeResult.order result)
                (ArrangeResult.alignment result) items in
            (inr (ArrangeResult.explanation result), h,
             out2 ++ (effect_of_entry <$> out))
        end
  end.

(** [items] is the slide's shapes, read by [arrangeShapesInOrder]. *)
Definition requestArrangement (userMessage : string)
  (labeledShapes : list LabeledShape.t)
  (reply : fetch_outcome ArrangeResult.t) (items : heap) : caller_outcome :=
  let out0 :=
    [console_out level_log
       [js_string ("Requesting arrangement: " +:+ dquote +:+ userMessage +:+ dquote)];
     console_out level_log
       [js_string "Available shapes:"; js_strings (LabeledShape.label <$> labeledShapes)]] in
  match requestArrangement_try userMessage labeledShapes reply items with
  | (inr value, h, out) => (value, h, out0 ++ out)
  | (inl error, h, out) =>
      ("Error: " +:+ thrown_to_string error, h,
       out0 ++ out
       ++ [console_out level_error [js_string "Arrangement error:"; js_thrown error]])
  end.

(** The requests of a trace. *)
Definition requests (out : list effect) : list (string * js_value) :=
  omap (λ e, match e with
             | fetch_post url body => Some (url, body)
             | console_out _ _ => None
             end) out.

(** The console lines of a trace written with [console.warn] or
    [console.error]. *)
Definition is_complaint (e : effect) : bool :=
  match e with
  | console_out level_warn _ | console_out level_error _ => true
  | _ => false
  end.
Definition complaints (out : list effect) : list effect := filter is_complaint out.

(** Replies used in examples. *)
Definition reply_ok {T} (result : T) : fetch_outcome T :=
  fetch_resolves (mkResponse 200 EmptyString (inr result)).
Definition reply_500 {T} : fetch_outcome T :=
  fetch_resolves (mkResponse 500 "Internal Server Error"
                    (inl (thrown_value "SyntaxError: Unexpected token"))).

(** * Binary64 arithmetic

    Facts about the specification of the primitive operations
    ([SpecFloat], binary64: precision 53, largest exponent 1024) that the
    sort of the distributing modes relies on. *)

Section SpecFloat.
Local Open Scope Z_scope.

Lemma key_cmp_Lt a b : key_cmp a b = Lt ↔ key_lt a b.
Proof.
  destruct a as [[a1 a2] a3], b as [[b1 b2] b3]. unfold key_cmp, key_lt. cbn.
  destruct (Z.compare_spec a1 b1), (Z.compare_spec a2 b2), (Z.compare_spec a3 b3);
    split; intros; (done || lia).
Qed.

Lemma key_cmp_Eq a b : key_cmp a b = Eq ↔ a = b.
Proof.
  destruct a as [[a1 a2] a3], b as [[b1 b2] b3]. unfold key_cmp. cbn.
  destruct (Z.compare_spec a1 b1), (Z.compare_spec a2 b2), (Z.compare_spec a3 b3);
    split; intros Hx; try done; try (injection Hx; lia); subst; done.
Qed.

Lemma key_cmp_Gt a b : key_cmp a b = Gt ↔ key_lt b a.
Proof.
  destruct a as [[a1 a2] a3], b as [[b1 b2] b3]. unfold key_cmp, key_lt. cbn.
  destruct (Z.compare_spec a1 b1), (Z.compare_spec a2 b2), (Z.compare_spec a3 b3);
    split; intros; (done || lia).
Qed.

Lemma SFcompare_key (x y : spec_float) :
  SFcompare x y =
  match SF_key x, SF_key y with
  | Some a, Some b => Some (key_cmp a b)
  | _, _ => None
  end.
Proof.
  destruct x as [sx|sx| |sx mx ex], y as [sy|sy| |sy my ey];
    try destruct sx; try destruct sy; try reflexivity.
  cbn. unfold key_cmp. cbn. rewrite Z.compare_opp, (Z.compare_antisym ex ey).
  by destruct (ex ?= ey).
Qed.

(** Digits *)
Lemma digits2_pos_bounds (p : positive) :
  2 ^ (Zpos (digits2_pos p) - 1) ≤ Zpos p < 2 ^ Zpos (digits2_pos p).
Proof.
  induction p as [p IH|p IH|]; cbn [digits2_pos]; [| |done].
  - rewrite Pos2Z.inj_succ, Z.pow_succ_r by lia.
    replace (Z.succ (Z.pos (digits2_pos p)) - 1) with (Z.succ (Z.pos (digits2_pos p) - 1)) by lia.
    rewrite Z.pow_succ_r by lia. lia.
  - rewrite Pos2Z.inj_succ, Z.pow_succ_r by lia.
    replace (Z.succ (Z.pos (digits2_pos p)) - 1) with (Z.succ (Z.pos (digits2_pos p) - 1)) by lia.
    rewrite Z.pow_succ_r by lia. lia.
Qed.

Lemma Pos_iter_xO (d m : positive) : Zpos (Pos.iter xO m d) = Zpos m * 2 ^ Zpos d.
Proof.
  induction d as [|d IH] using Pos.peano_ind.
  - cbn. lia.
  - rewrite Pos.iter_succ, Pos2Z.inj_succ, Z.pow_succ_r by lia.
    rewrite (Pos2Z.inj_xO (Pos.iter xO m d)), IH. lia.
Qed.

Lemma shl_align_value (m : positive) (e e' : Z) :
  e' ≤ e → Zpos (shl_align m e e').1 = Zpos m * 2 ^ (e - e').
Proof.
  intros He. unfold shl_align. destruct (e' - e) as [|d|d] eqn:Hd; cbn [fst].
  - replace (e - e') with 0 by lia. lia.
  - lia.
  - rewrite Pos_iter_xO. f_equal. f_equal. lia.
Qed.

Lemma shr_m_of_loc (m : Z) (l : location) : shr_m (shr_record_of_loc m l) = m.
Proof. by destruct l as [|[]]. Qed.

Lemma shr_1_m (mrs : shr_record) : 0 ≤ shr_m mrs → shr_m (shr_1 mrs) = shr_m mrs / 2.
Proof.
  destruct mrs as [m r s]. cbn [shr_m]. intros Hm. rewrite <- Z.div2_div.
  destruct m as [|[p|p|]|p]; try done.
Qed.

Lemma iter_shr_1_m (n : positive) (mrs : shr_record) :
  0 ≤ shr_m mrs → shr_m (SpecFloat.iter_pos shr_1 n mrs) = shr_m mrs / 2 ^ Zpos n.
Proof.
  revert mrs. induction n as [n IH|n IH|]; intros mrs Hm; cbn [SpecFloat.iter_pos].
  - assert (0 ≤ shr_m (shr_1 mrs)) as H1 by (rewrite shr_1_m by done; by apply Z.div_pos).
    assert (0 ≤ shr_m (SpecFloat.iter_pos shr_1 n (shr_1 mrs))) as H2
      by (rewrite IH by done; apply Z.div_pos; lia).
    rewrite !IH, shr_1_m by done. rewrite !Z.div_div by lia. f_equal.
    rewrite (Pos2Z.inj_xI n).
    replace (2 * Z.pos n + 1) with (1 + Z.pos n + Z.pos n) by lia.
    rewrite !Z.pow_add_r by lia. lia.
  - assert (0 ≤ shr_m (SpecFloat.iter_pos shr_1 n mrs)) as H2
      by (rewrite IH by done; apply Z.div_pos; lia).
    rewrite !IH by done. rewrite !Z.div_div by lia. f_equal.
    rewrite (Pos2Z.inj_xO n).
    replace (2 * Z.pos n) with (Z.pos n + Z.pos n) by lia.
    rewrite !Z.pow_add_r by lia. lia.
  - rewrite shr_1_m by done. done.
Qed.

Lemma round_nearest_even_ge (m : Z) (l : location) : m ≤ round_nearest_even m l.
Proof. destruct l as [|[]]; cbn; try destruct (Z.even m); lia. Qed.

Lemma shr_fexp_pos (q : positive) (e : Z) (l : location) :
  emin ≤ e →
  0 < shr_m (shr_fexp prec emax (Zpos q) e l).1 ∧ e ≤ (shr_fexp prec emax (Zpos q) e l).2.
Proof.
  intros He. unfold shr_fexp, shr. cbn [Zdigits2].
  destruct (fexp prec emax (Zpos (digits2_pos q) + e) - e) as [|n|n] eqn:Hn; cbn [fst snd].
  - rewrite shr_m_of_loc. lia.
  - rewrite iter_shr_1_m by (rewrite shr_m_of_loc; lia). rewrite shr_m_of_loc.
    split; [|lia]. apply Z.div_str_pos. split; [apply Z.pow_pos_nonneg; lia|].
    pose proof (digits2_pos_bounds q) as [Hq _].
    etrans; [|exact Hq]. apply Z.pow_le_mono_r; [lia|].
    unfold fexp, SpecFloat.emin, prec, emax in *. lia.
  - rewrite shr_m_of_loc. lia.
Qed.

Lemma binary_round_aux_signed (s : bool) (q : positive) (e : Z) (l : location) :
  emin ≤ e → SF_signed s (binary_round_aux prec emax s (Zpos q) e l).
Proof.
  intros He. unfold binary_round_aux.
  pose proof (shr_fexp_pos q e l He) as [H1 H2].
  destruct (shr_fexp prec emax (Zpos q) e l) as [mrs' e']. cbn [fst snd] in H1, H2.
  pose proof (round_nearest_even_ge (shr_m mrs') (loc_of_shr_record mrs')) as H3.
  destruct (round_nearest_even (shr_m mrs') (loc_of_shr_record mrs')) as [|q'|q'];
    [lia| |lia].
  assert (emin ≤ e') as He' by lia.
  pose proof (shr_fexp_pos q' e' loc_Exact He') as [H4 H5].
  destruct (shr_fexp prec emax (Zpos q') e' loc_Exact) as [mrs'' e''].
  cbn [fst snd] in H4, H5.
  destruct (shr_m mrs''); [lia| |lia]. by destruct (e'' <=? emax - prec).
Qed.

Lemma binary_round_signed (s : bool) (p : positive) (e : Z) :
  emin ≤ e → SF_signed s (binary_round prec emax s p e).
Proof.
  intros He. unfold binary_round.
  destruct (shl_align p e (fexp prec emax (Zpos (digits2_pos p) + e))) as [mz ez] eqn:Hs.
  apply binary_round_aux_signed.
  unfold shl_align in Hs.
  destruct (fexp prec emax (Zpos (digits2_pos p) + e) - e) eqn:Hd;
    injection Hs as <- <-; try done.
  unfold fexp, SpecFloat.emin, prec, emax. lia.
Qed.

Lemma bounded_canonical (m : positive) (e : Z) :
  bounded prec emax m e = true →
  emin ≤ e ∧ Zpos (digits2_pos m) ≤ 53 ∧ (emin < e → Zpos (digits2_pos m) = 53).
Proof.
  unfold bounded, canonical_mantissa. intros [H _]%andb_true_iff.
  apply Z.eqb_eq in H. unfold fexp, SpecFloat.emin, prec, emax in *. lia.
Qed.

Lemma finite_lt_of_exponent (mx my : positive) (ex ey : Z) :
  bounded prec emax mx ex = true → bounded prec emax my ey = true →
  ex < ey → Zpos mx < Zpos my * 2 ^ (ey - ex).
Proof.
  intros (Hex & Hdx & _)%bounded_canonical (Hey & _ & Hdy)%bounded_canonical Hlt.
  pose proof (digits2_pos_bounds mx) as [_ Hmx].
  pose proof (digits2_pos_bounds my) as [Hmy _].
  rewrite Hdy in Hmy by lia.
  assert (2 ^ Zpos (digits2_pos mx) ≤ 2 ^ 53) as H1 by (apply Z.pow_le_mono_r; lia).
  assert (2 ^ 1 ≤ 2 ^ (ey - ex)) as H2 by (apply Z.pow_le_mono_r; lia).
  change (2 ^ 53) with 9007199254740992 in H1.
  change (2 ^ (53 - 1)) with 4503599627370496 in Hmy.
  change (2 ^ 1) with 2 in H2. nia.
Qed.

Lemma SFcompare_finite_sub (sx sy : bool) (mx my : positive) (ex ey : Z) :
  bounded prec emax mx ex = true → bounded prec emax my ey = true →
  SFcompare (S754_finite sx mx ex) (S754_finite sy my ey)
  = Some (cond_Zopp sx (Zpos (shl_align mx ex (Z.min ex ey)).1)
          - cond_Zopp sy (Zpos (shl_align my ey (Z.min ex ey)).1) ?= 0).
Proof.
  intros Hx Hy. rewrite !shl_align_value by lia.
  pose proof (finite_lt_of_exponent mx my ex ey Hx Hy) as Hlt.
  pose proof (finite_lt_of_exponent my mx ey ex Hy Hx) as Hgt.
  assert (0 < 2 ^ (ex - Z.min ex ey)) as Ha by (apply Z.pow_pos_nonneg; lia).
  assert (0 < 2 ^ (ey - Z.min ex ey)) as Hb by (apply Z.pow_pos_nonneg; lia).
  cbn [SFcompare]. f_equal. symmetry.
  destruct sx, sy; cbn [cond_Zopp].
  - destruct (Z.compare_spec ex ey) as [->|He|He].
    + rewrite Z.min_id, Z.sub_diag, !Z.mul_1_r in *.
      by rewrite <- Z.compare_sub.
    + rewrite Z.min_l, Z.sub_diag, Z.mul_1_r in * by lia.
      apply Z.compare_gt_iff. lia.
    + rewrite Z.min_r, Z.sub_diag, Z.mul_1_r in * by lia.
      apply Z.compare_lt_iff. lia.
  - apply Z.compare_lt_iff. nia.
  - apply Z.compare_gt_iff. nia.
  - destruct (Z.compare_spec ex ey) as [->|He|He].
    + rewrite Z.min_id, Z.sub_diag, !Z.mul_1_r in *.
      by rewrite <- Z.compare_sub.
    + rewrite Z.min_l, Z.sub_diag, Z.mul_1_r in * by lia.
      apply Z.compare_lt_iff. lia.
    + rewrite Z.min_r, Z.sub_diag, Z.mul_1_r in * by lia.
      apply Z.compare_gt_iff. lia.
Qed.

Lemma SFeqb_refl (x : spec_float) : SF_key x ≠ None → SFeqb x x = true.
Proof.
  intros Hx. unfold SFeqb. rewrite SFcompare_key.
  destruct (SF_key x) as [a|]; [|done]. by rewrite (proj2 (key_cmp_Eq a a)).
Qed.

Lemma SFsub_sign (x y : spec_float) :
  valid_binary x = true → valid_binary y = true →
  SF_key x ≠ None → SF_key y ≠ None →
  negb (SFeqb (SFsub prec emax x y) (SFsub prec emax x y))
  || SFleb (SFsub prec emax x y) (S754_zero false)
  = SFleb x y.
Proof.
  intros Vx Vy Hx Hy.
  destruct x as [sx|sx| |sx mx ex], y as [sy|sy| |sy my ey]; try done;
    try (by destruct sx, sy).
  - destruct sy; cbn; unfold SFeqb, SFcompare;
      by rewrite Z.compare_refl, Pos.compare_cont_refl.
  - destruct sx; cbn; unfold SFeqb, SFcompare;
      by rewrite Z.compare_refl, Pos.compare_cont_refl.
  - cbn [valid_binary] in Vx, Vy.
    unfold SFleb at 2. rewrite (SFcompare_finite_sub sx sy mx my ex ey Vx Vy).
    cbn [SFsub]. unfold binary_normalize.
    destruct (bounded_canonical _ _ Vx) as (Hex & _), (bounded_canonical _ _ Vy) as (Hey & _).
    assert (emin ≤ Z.min ex ey) as Hez by lia.
    destruct (cond_Zopp sx (Zpos (shl_align mx ex (Z.min ex ey)).1)
              - cond_Zopp sy (Zpos (shl_align my ey (Z.min ex ey)).1)) as [|p|p].
    + done.
    + pose proof (binary_round_signed false p _ Hez) as Hs.
      destruct (binary_round prec emax false p (Z.min ex ey)) as [|s| |s m e];
        try done; cbn in Hs; subst s; [done|].
      rewrite SFeqb_refl by done. done.
    + pose proof (binary_round_signed true p _ Hez) as Hs.
      destruct (binary_round prec emax true p (Z.min ex ey)) as [|s| |s m e];
        try done; cbn in Hs; subst s; [done|].
      rewrite SFeqb_refl by done. done.
Qed.
End SpecFloat.

(** ** Order of binary64 numbers *)

Lemma is_nan_key (x : float) : is_nan x = false ↔ is_Some (float_key x).
Proof.
  unfold is_nan, float_key. rewrite FloatAxioms.eqb_spec. split.
  - intros H. destruct (Prim2SF x) as [| | |[]]; try done; by destruct s.
  - intros H. rewrite SFeqb_refl; [done|]. by destruct H as [a ->].
Qed.

Lemma ltb_key (x y : float) :
  (x <? y) = true ↔ ∃ a b, float_key x = Some a ∧ float_key y = Some b ∧ key_lt a b.
Proof.
  rewrite FloatAxioms.ltb_spec. unfold SFltb, float_key. rewrite SFcompare_key.
  destruct (SF_key (Prim2SF x)) as [a|], (SF_key (Prim2SF y)) as [b|];
    try (split; [done|by intros (? & ? & ? & ? & ?)]).
  split.
  - intros H. exists a, b. split; [done|]. split; [done|]. apply key_cmp_Lt.
    by destruct (key_cmp a b).
  - intros (? & ? & [= <-] & [= <-] & H). by rewrite (proj2 (key_cmp_Lt a b) H).
Qed.

Lemma eqb_key (x y : float) :
  (x =? y) = true ↔ ∃ a, float_key x = Some a ∧ float_key y = Some a.
Proof.
  rewrite FloatAxioms.eqb_spec. unfold SFeqb, float_key. rewrite SFcompare_key.
  destruct (SF_key (Prim2SF x)) as [a|], (SF_key (Prim2SF y)) as [b|];
    try (split; [done|by intros (? & ? & ?)]).
  split.
  - intros H. exists a. split; [done|]. f_equal. symmetry. apply key_cmp_Eq.
    by destruct (key_cmp a b).
  - intros (? & [= <-] & [= <-]). by rewrite (proj2 (key_cmp_Eq b b)).
Qed.

Lemma leb_key (x y : float) :
  (x <=? y) = true ↔
  ∃ a b, float_key x = Some a ∧ float_key y = Some b ∧ (key_lt a b ∨ a = b).
Proof.
  rewrite FloatAxioms.leb_spec. unfold SFleb, float_key. rewrite SFcompare_key.
  destruct (SF_key (Prim2SF x)) as [a|], (SF_key (Prim2SF y)) as [b|];
    try (split; [done|by intros (? & ? & ? & ? & ?)]).
  split.
  - intros H. exists a, b. split; [done|]. split; [done|].
    destruct (key_cmp a b) eqn:E; [|left|done].
    + right. by apply key_cmp_Eq.
    + by apply key_cmp_Lt.
  - intros (? & ? & [= <-] & [= <-] & [H| ->]).
    + by rewrite (proj2 (key_cmp_Lt a b) H).
    + by rewrite (proj2 (key_cmp_Eq b b)).
Qed.

Lemma key_lt_trans (a b c : Z * Z * Z) : key_lt a b → key_lt b c → key_lt a c.
Proof.
  destruct a as [[a1 a2] a3], b as [[b1 b2] b3], c as [[c1 c2] c3].
  unfold key_lt. cbn. lia.
Qed.

Lemma key_lt_total (a b : Z * Z * Z) : key_lt a b ∨ a = b ∨ key_lt b a.
Proof.
  destruct (key_cmp a b) eqn:E.
  - right. left. by apply key_cmp_Eq.
  - left. by apply key_cmp_Lt.
  - right. right. by apply key_cmp_Gt.
Qed.

Lemma ltb_trans (x y z : float) : (x <? y) = true → (y <? z) = true → (x <? z) = true.
Proof.
  rewrite !ltb_key. intros (a & b & Ha & Hb & Hab) (b' & c & Hb' & Hc & Hbc).
  rewrite Hb in Hb'. injection Hb' as <-.
  exists a, c. eauto using key_lt_trans.
Qed.

Lemma ltb_eqb_trans (x y z : float) : (x <? y) = true → (y =? z) = true → (x <? z) = true.
Proof.
  rewrite !ltb_key, eqb_key. intros (a & b & Ha & Hb & Hab) (b' & Hb' & Hc).
  rewrite Hb in Hb'. injection Hb' as <-. exists a, b. eauto.
Qed.

Lemma eqb_ltb_trans (x y z : float) : (x =? y) = true → (y <? z) = true → (x <? z) = true.
Proof.
  rewrite !ltb_key, eqb_key. intros (a & Ha & Hb) (b' & c & Hb' & Hc & Hbc).
  rewrite Hb in Hb'. injection Hb' as <-. exists a, c. eauto.
Qed.

Lemma eqb_trans (x y z : float) : (x =? y) = true → (y =? z) = true → (x =? z) = true.
Proof.
  rewrite !eqb_key. intros (a & Ha & Hb) (b' & Hb' & Hc).
  rewrite Hb in Hb'. injection Hb' as <-. exists a. eauto.
Qed.

Lemma leb_cases (x y : float) : (x <=? y) = true → (x <? y) = true ∨ (x =? y) = true.
Proof.
  rewrite leb_key, ltb_key, eqb_key. intros (a & b & Ha & Hb & [H| ->]).
  - left. eauto.
  - right. eauto.
Qed.

Lemma leb_false_ltb (x y : float) :
  is_nan x = false → is_nan y = false → (x <=? y) = false → (y <? x) = true.
Proof.
  rewrite !is_nan_key. intros [a Ha] [b Hb] Hle. apply ltb_key.
  exists b, a. split; [done|]. split; [done|].
  destruct (key_lt_total a b) as [H|[H|H]]; [| |done].
  - rewrite (proj2 (leb_key x y)) in Hle; [done|]. exists a, b. eauto.
  - rewrite (proj2 (leb_key x y)) in Hle; [done|]. exists a, b. eauto.
Qed.

(** The comparator [(a, b) => a - b] orders numbers that are not NaN as
    [<=] does. *)
Lemma sort_le_sub (x y : float) :
  is_nan x = false → is_nan y = false → sort_le (x - y) = (x <=? y).
Proof.
  intros Hx Hy. unfold sort_le, is_nan.
  rewrite FloatAxioms.eqb_spec, !FloatAxioms.leb_spec, FloatAxioms.sub_spec.
  change (Prim2SF 0) with (S754_zero false).
  apply SFsub_sign; try apply Prim2SF_valid.
  - apply is_nan_key in Hx as [a Ha]. unfold float_key in Ha. by rewrite Ha.
  - apply is_nan_key in Hy as [a Ha]. unfold float_key in Ha. by rewrite Ha.
Qed.

(** * The layout functions *)

(** ** Folds *)

Lemma fold_left_fmap {A B C} (g : C → B → C) (f : A → B) (l : list A) (c : C) :
  fold_left g (f <$> l) c = fold_left (λ acc x, g acc (f x)) l c.
Proof. revert c. induction l as [|x l IH]; intros c; [done|]. cbn. apply IH. Qed.

Lemma fold_left_ext_in {A B} (f g : B → A → B) (l : list A) (b : B) :
  (∀ x acc, x ∈ l → f acc x = g acc x) → fold_left f l b = fold_left g l b.
Proof.
  revert b. induction l as [|x l IH]; intros b H; [done|]. cbn.
  rewrite H by (apply elem_of_cons; by left).
  apply IH. intros y acc Hy. apply H, elem_of_cons. by right.
Qed.

Lemma length_num_fmap {A B} (f : A → B) (l : list A) : length_num (f <$> l) = length_num l.
Proof. unfold length_num. by rewrite length_fmap. Qed.

(** ** The stable sort *)

Lemma sort_snoc {A} (cmp : A → A → float) (l : list A) (x : A) :
  sort cmp (l ++ [x]) = sort_insert cmp x (sort cmp l).
Proof. unfold sort. by rewrite fold_left_app. Qed.

Lemma sort_insert_Permutation {A} (cmp : A → A → float) (x : A) (l : list A) :
  sort_insert cmp x l ≡ₚ x :: l.
Proof.
  induction l as [|y l IH]; cbn; [done|].
  destruct (sort_le (cmp y x)); [|done]. rewrite IH. apply Permutation_swap.
Qed.

Lemma sort_Permutation {A} (cmp : A → A → float) (l : list A) : sort cmp l ≡ₚ l.
Proof.
  induction l as [|x l IH] using rev_ind; [done|].
  rewrite sort_snoc, sort_insert_Permutation, IH.
  by rewrite Permutation_cons_append.
Qed.

Lemma stable_lt_trans (key : ref → float) : Transitive (stable_lt key).
Proof.
  intros a b c [Hab|[Hab ?]] [Hbc|[Hbc ?]]; unfold stable_lt.
  - left. by eapply ltb_trans.
  - left. by eapply ltb_eqb_trans.
  - left. by eapply eqb_ltb_trans.
  - right. split; [by eapply eqb_trans|lia].
Qed.

Lemma sort_insert_sorted (key : ref → float) (x : ref) (l : list ref) :
  is_nan (key x) = false → (∀ y, y ∈ l → is_nan (key y) = false) →
  StronglySorted (stable_lt key) l →
  (∀ y, y ∈ l → (y < x)%nat) →
  StronglySorted (stable_lt key) (sort_insert (λ a b, key a - key b) x l).
Proof.
  intros Hx Hnan Hl. induction Hl as [|y l Hl IH Hy]; intros Hlt; cbn.
  - repeat constructor.
  - assert (is_nan (key y) = false) as Hy' by (apply Hnan, elem_of_cons; by left).
    rewrite sort_le_sub by done.
    destruct (key y <=? key x) eqn:Hc.
    + constructor.
      * apply IH.
        -- intros z Hz. apply Hnan, elem_of_cons. by right.
        -- intros z Hz. apply Hlt, elem_of_cons. by right.
      * rewrite Forall_forall. intros z Hz.
        rewrite sort_insert_Permutation in Hz.
        apply elem_of_cons in Hz as [->|Hz].
        -- assert (y < x)%nat by (apply Hlt, elem_of_cons; by left).
           destruct (leb_cases _ _ Hc); [by left|by right; split].
        -- rewrite Forall_forall in Hy. by apply Hy.
    + assert ((key x <? key y) = true) as Hxy by by apply leb_false_ltb.
      constructor; [by constructor|].
      constructor; [by left|].
      rewrite Forall_forall in Hy |- *. intros z Hz.
      eapply stable_lt_trans; [|by apply Hy]. by left.
Qed.

Lemma sort_seq_sorted (key : ref → float) (n : nat) :
  (∀ r, (r < n)%nat → is_nan (key r) = false) →
  StronglySorted (stable_lt key) (sort (λ a b, key a - key b) (seq 0 n)).
Proof.
  induction n as [|n IH]; intros Hnan; [constructor|].
  rewrite seq_S, sort_snoc. apply sort_insert_sorted.
  - apply Hnan. lia.
  - intros y Hy. rewrite sort_Permutation in Hy. apply elem_of_seq in Hy.
    apply Hnan. lia.
  - apply IH. intros r Hr. apply Hnan. lia.
  - intros y Hy. rewrite sort_Permutation in Hy.
    apply elem_of_seq in Hy. lia.
Qed.

Lemma sort_seq_NoDup (cmp : ref → ref → float) (n : nat) : NoDup (sort cmp (seq 0 n)).
Proof. rewrite sort_Permutation. apply NoDup_seq. Qed.

(** ** The centring loops *)

Lemma alter_loop_length (f : Shape.t → Shape.t) (refs : list ref) (h : heap) :
  length (alter_loop f refs h) = length h.
Proof.
  unfold alter_loop. revert h.
  induction refs as [|r refs IH]; intros h; cbn; [done|].
  by rewrite IH, length_alter.
Qed.

Lemma alter_loop_lookup (f : Shape.t → Shape.t) (refs : list ref) (h : heap) (i : ref) :
  (∀ s, f (f s) = f s) →
  alter_loop f refs h !! i = if decide (i ∈ refs) then f <$> h !! i else h !! i.
Proof.
  intros Hf. unfold alter_loop. revert h.
  induction refs as [|r refs IH]; intros h; cbn.
  - case_decide as Hi; [|done]. by apply elem_of_nil in Hi.
  - rewrite IH, list_lookup_alter.
    destruct (decide (r = i)) as [->|Hne].
    + rewrite (decide_True (P := i ∈ i :: refs)) by (apply elem_of_cons; by left).
      case_decide; [|done]. destruct (h !! i); cbn; by rewrite ?Hf.
    + destruct (decide (i ∈ refs)) as [Hi|Hi].
      * rewrite decide_True; [done|]. apply elem_of_cons. by right.
      * rewrite decide_False; [done|]. rewrite elem_of_cons. by intros [?|?].
Qed.

Lemma alter_loop_notin (f : Shape.t → Shape.t) (refs : list ref) (h : heap) (i : ref) :
  (∀ s, f (f s) = f s) → i ∉ refs → alter_loop f refs h !! i = h !! i.
Proof. intros Hf Hi. rewrite alter_loop_lookup by done. by rewrite decide_False. Qed.

Lemma alter_loop_frame (R : relation Shape.t) (f : Shape.t → Shape.t)
    (refs : list ref) (h : heap) (i : ref) :
  Reflexive R → Transitive R → (∀ s, R s (f s)) →
  R (h !!! i) (alter_loop f refs h !!! i).
Proof.
  intros HR HT Hf. unfold alter_loop. revert h.
  induction refs as [|r refs IH]; intros h; cbn; [done|].
  etrans; [|apply IH]. rewrite list_lookup_total_alter.
  case_decide as Hi; [|done]. destruct Hi as [-> _]. apply Hf.
Qed.

(** ** The distributing loops *)

Lemma running_0 (extent : Shape.t → float) (gap : float) (items : heap)
    (refs : list ref) (start : float) :
  running extent gap items refs start 0 = start.
Proof. unfold running. by rewrite take_0. Qed.

Lemma running_S (extent : Shape.t → float) (gap : float) (items : heap)
    (refs : list ref) (start : float) (k : nat) (r : ref) :
  refs !! k = Some r →
  running extent gap items refs start (S k)
  = running extent gap items refs start k + (extent (items !!! r) + gap).
Proof.
  intros Hk. unfold running. by rewrite (take_S_r _ _ _ Hk), fold_left_app.
Qed.

Section PlaceLoop.
Variable place : float → Shape.t → Shape.t.
Variable extent : Shape.t → float.
Variable gap : float.

Lemma place_loop_cons (r : ref) (refs : list ref) (cur : float) (h : heap) :
  place_loop place extent gap (r :: refs) (cur, h) =
  place_loop place extent gap refs
    (cur + (extent (alter (place cur) r h !!! r) + gap), alter (place cur) r h).
Proof. reflexivity. Qed.

Lemma place_loop_length (refs : list ref) (cur : float) (h : heap) :
  length (place_loop place extent gap refs (cur, h)).2 = length h.
Proof.
  revert cur h. induction refs as [|r refs IH]; intros cur h; [done|].
  by rewrite place_loop_cons, IH, length_alter.
Qed.

(** Objects that the loop does not visit are left alone. *)
Lemma place_loop_notin (refs : list ref) (cur : float) (h : heap) (i : ref) :
  i ∉ refs → (place_loop place extent gap refs (cur, h)).2 !! i = h !! i.
Proof.
  revert cur h. induction refs as [|r refs IH]; intros cur h Hi; [done|].
  apply not_elem_of_cons in Hi as [Hne Hi].
  by rewrite place_loop_cons, IH, list_lookup_alter_ne.
Qed.

(** What every assignment of the loop preserves is preserved by the loop. *)
Lemma place_loop_preserves (R : relation Shape.t) (refs : list ref) (cur : float) (h : heap) :
  Reflexive R → Transitive R → (∀ c s, R s (place c s)) →
  Forall2 R h (place_loop place extent gap refs (cur, h)).2.
Proof.
  intros HR HT Hplace. revert cur h.
  induction refs as [|r refs IH]; intros cur h.
  - cbn. induction h; by constructor.
  - rewrite place_loop_cons. etrans; [|apply IH].
    apply Forall2_same_length_lookup_2; [by rewrite length_alter|].
    intros i s s' Hs. rewrite list_lookup_alter. case_decide as Hi.
    + subst i. rewrite Hs. intros [= <-]. apply Hplace.
    + rewrite Hs. by intros [= <-].
Qed.

(** What every assignment of the loop establishes holds of each visited object. *)
Lemma place_loop_visited (Q : Shape.t → Prop) (refs : list ref) (cur : float) (h : heap) (r : ref) :
  (∀ c s, Q (place c s)) →
  r ∈ refs → (r < length h)%nat →
  Q ((place_loop place extent gap refs (cur, h)).2 !!! r).
Proof.
  intros HQ. revert cur h.
  induction refs as [|r0 refs IH]; intros cur h Hr Hlen.
  - by apply elem_of_nil in Hr.
  - rewrite place_loop_cons.
    destruct (decide (r ∈ refs)) as [Hin|Hnin].
    + apply IH; [done|by rewrite length_alter].
    + apply elem_of_cons in Hr as [->|?]; [|done].
      erewrite list_lookup_total_correct; last first.
      { rewrite place_loop_notin by done.
        rewrite list_lookup_alter_eq, (list_lookup_lookup_total_lt h r0) by done.
        done. }
      apply HQ.
Qed.

Lemma place_loop_frame (R : relation Shape.t) (refs : list ref) (cur : float) (h : heap) (i : ref) :
  Reflexive R → Transitive R → (∀ c s, R s (place c s)) →
  R (h !!! i) ((place_loop place extent gap refs (cur, h)).2 !!! i).
Proof.
  intros HR HT Hplace.
  pose proof (place_loop_preserves R refs cur h HR HT Hplace) as HF.
  destruct (decide (i < length h)%nat) as [Hi|Hi].
  - eapply Forall2_lookup_lr; [exact HF| |];
      apply list_lookup_lookup_total_lt; by rewrite ?place_loop_length.
  - rewrite !list_lookup_total_alt, !lookup_ge_None_2; [done| |lia].
    rewrite place_loop_length. lia.
Qed.

Hypothesis extent_place : ∀ c s, extent (place c s) = extent s.

(** The object visited [k]-th gets the assignment made with the running
    position that [k] steps build up. *)
Lemma place_loop_nth (refs : list ref) (cur : float) (h : heap) (k : nat) (r : ref) :
  NoDup refs → (∀ r', r' ∈ refs → (r' < length h)%nat) →
  refs !! k = Some r →
  (place_loop place extent gap refs (cur, h)).2 !!! r =
  place (running extent gap h refs cur k) (h !!! r).
Proof.
  revert cur h k. induction refs as [|r0 refs IH]; intros cur h k Hnd Hval Hk; [done|].
  apply NoDup_cons in Hnd as [Hr0 Hnd].
  assert (r0 < length h)%nat as Hr0len by (apply Hval, elem_of_cons; by left).
  rewrite place_loop_cons. destruct k as [|k]; cbn in Hk.
  - injection Hk as ->. rewrite running_0.
    apply list_lookup_total_correct.
    rewrite place_loop_notin by done.
    by rewrite list_lookup_alter_eq, (list_lookup_lookup_total_lt h r) by done.
  - assert (r ∈ refs) as Hr by (apply list_elem_of_lookup; eauto).
    assert (r0 ≠ r) as Hne by (intros ->; done).
    rewrite (IH _ _ k) by
      (try done; intros r' Hr'; rewrite length_alter; apply Hval, elem_of_cons; by right).
    rewrite list_lookup_total_alter_eq, extent_place by done.
    rewrite (list_lookup_total_alter_ne _ _ r0 r) by done.
    f_equal. unfold running. cbn [take fold_left].
    apply fold_left_ext_in. intros r' acc Hr'.
    assert (r' ∈ refs) as Hin by (by apply (subseteq_take k refs)).
    rewrite list_lookup_total_alter_ne; [done|]. by intros ->.
Qed.
End PlaceLoop.

(** ** Reading the heap through the array of all references *)

Lemma refs_of_valid (items : heap) (r : ref) : r ∈ refs_of items ↔ (r < length items)%nat.
Proof. unfold refs_of. rewrite elem_of_seq. lia. Qed.

Lemma fmap_refs_of {B} (f : Shape.t → B) (items : heap) :
  (λ r, f (items !!! r)) <$> refs_of items = f <$> items.
Proof.
  apply list_eq. intros i. unfold refs_of. rewrite !list_lookup_fmap.
  destruct (decide (i < length items)%nat) as [Hi|Hi].
  - rewrite lookup_seq_lt by done. cbn.
    by rewrite (list_lookup_lookup_total_lt items i) by done.
  - rewrite (lookup_ge_None_2 items) by lia.
    by rewrite lookup_ge_None_2 by (rewrite length_seq; lia).
Qed.

Lemma read_refs_of (items : heap) : (λ r, items !!! r) <$> refs_of items = items.
Proof. etrans; [exact (fmap_refs_of id items)|apply list_fmap_id]. Qed.

(** The averages and gaps computed by the source. *)
Lemma avgCenterX_refs (items : heap) (refs : list ref) :
  reduce (λ sum r, let s := items !!! r in sum + Shape.left s + Shape.width s / 2) 0 refs
    / length_num refs
  = avgCenterX ((λ r, items !!! r) <$> refs).
Proof. unfold avgCenterX, reduce. by rewrite fold_left_fmap, length_num_fmap. Qed.

Lemma avgCenterY_refs (items : heap) (refs : list ref) :
  reduce (λ sum r, let s := items !!! r in sum + Shape.top s + Shape.height s / 2) 0 refs
    / length_num refs
  = avgCenterY ((λ r, items !!! r) <$> refs).
Proof. unfold avgCenterY, reduce. by rewrite fold_left_fmap, length_num_fmap. Qed.

Lemma gap_distribute_gap (canvas : float) (extent : Shape.t → float) (items : heap) (refs : list ref) :
  (canvas - 2 * 40 - reduce (λ sum r, sum + extent (items !!! r)) 0 refs)
    / (length_num refs - 1)
  = distribute_gap canvas ((λ r, extent (items !!! r)) <$> refs).
Proof.
  unfold distribute_gap, sum_list, reduce. by rewrite fold_left_fmap, length_num_fmap.
Qed.

(** ** Resolving the order list *)

Lemma orderedShapes_loop_spec (m : gmap string ref) (shapeIds : list string) :
  orderedShapes_loop m shapeIds =
  (omap (λ id, m !! id) shapeIds,
   warning_for <$> filter (λ id, m !! id = None) shapeIds).
Proof.
  unfold orderedShapes_loop.
  enough (∀ acc out,
    fold_left (λ '(orderedShapes, out) id,
       match m !! id with
       | Some shape => (orderedShapes ++ [shape], out)
       | None =>
           (orderedShapes,
            out ++ [console_warn [Str ("Shape with id " +:+ id +:+ " not found")]])
       end) shapeIds (acc, out)
    = (acc ++ omap (λ id, m !! id) shapeIds,
       out ++ (warning_for <$> filter (λ id, m !! id = None) shapeIds))) as H
    by apply H.
  induction shapeIds as [|id ids IH]; intros acc out.
  - cbn. by rewrite !app_nil_r.
  - rewrite filter_cons. cbn [fold_left]. cbv beta iota.
    change (omap (λ id, m !! id) (id :: ids))
      with (match m !! id with
            | Some r => r :: omap (λ id, m !! id) ids
            | None => omap (λ id, m !! id) ids
            end).
    destruct (m !! id) as [r|] eqn:Hid; rewrite IH.
    + rewrite decide_False by done. by rewrite <- app_assoc.
    + rewrite decide_True by done. by rewrite <- app_assoc.
Qed.

Lemma orderedShapes_omap (items : heap) (shapeIds : list string) :
  orderedShapes items shapeIds = omap (λ id, shapeMap items !! id) shapeIds.
Proof. unfold orderedShapes. by rewrite orderedShapes_loop_spec. Qed.

Lemma warnings_filter (items : heap) (shapeIds : list string) :
  warnings items shapeIds =
  warning_for <$> filter (λ id, shapeMap items !! id = None) shapeIds.
Proof. unfold warnings. by rewrite orderedShapes_loop_spec. Qed.

(** Every reference in the map is an object of the heap with that id. *)
Lemma shapeMap_lookup (items : heap) (id : string) (r : ref) :
  shapeMap items !! id = Some r →
  (r < length items)%nat ∧ Shape.id (items !!! r) = id.
Proof.
  unfold shapeMap. rewrite <- refs_of_valid.
  enough (∀ refs (m : gmap string ref),
    fold_left (λ m r, <[Shape.id (items !!! r) := r]> m) refs m !! id = Some r →
    (r ∈ refs ∧ Shape.id (items !!! r) = id) ∨ m !! id = Some r) as H.
  { intros [?|Hm]%H; [done|]. by rewrite lookup_empty in Hm. }
  induction refs as [|r0 refs IH]; intros m; cbn; [by right|].
  intros [[? ?]|Hm]%IH.
  - left. split; [|done]. apply elem_of_cons. by right.
  - destruct (decide (Shape.id (items !!! r0) = id)) as [Heq|Hne].
    + rewrite Heq, lookup_insert_eq in Hm. injection Hm as ->.
      left. split; [|done]. apply elem_of_cons. by left.
    + rewrite lookup_insert_ne in Hm by done. by right.
Qed.

Lemma orderedShapes_valid (items : heap) (shapeIds : list string) (r : ref) :
  r ∈ orderedShapes items shapeIds → (r < length items)%nat.
Proof.
  rewrite orderedShapes_omap, list_elem_of_omap.
  intros (id & _ & Hid). by apply shapeMap_lookup in Hid as [? _].
Qed.

(** ** The assignments made by the loops *)

Lemma same_but_left_refl : Reflexive same_but_left.
Proof. by intros s. Qed.
Lemma same_but_left_trans : Transitive same_but_left.
Proof. intros s1 s2 s3 (?&?&?&?) (?&?&?&?). repeat split; congruence. Qed.
Lemma same_but_top_refl : Reflexive same_but_top.
Proof. by intros s. Qed.
Lemma same_but_top_trans : Transitive same_but_top.
Proof. intros s1 s2 s3 (?&?&?&?) (?&?&?&?). repeat split; congruence. Qed.
Lemma same_size_refl : Reflexive same_size.
Proof. by intros s. Qed.
Lemma same_size_trans : Transitive same_size.
Proof. intros s1 s2 s3 (?&?&?) (?&?&?). repeat split; congruence. Qed.

Lemma center_left_idemp (avg : float) (s : Shape.t) :
  center_left avg (center_left avg s) = center_left avg s.
Proof. by destruct s. Qed.

Lemma center_top_idemp (avg : float) (s : Shape.t) :
  center_top avg (center_top avg s) = center_top avg s.
Proof. by destruct s. Qed.

Lemma center_left_center_top (ax ay : float) (s : Shape.t) :
  center_left ax (center_top ay s) = center_top ay (center_left ax s).
Proof. by destruct s. Qed.

(** ** Unfolding [alignShapes] by mode *)

Lemma alignShapes_insufficient (mode : string) (items : heap) :
  (length items < 2)%nat →
  alignShapes mode items =
  (items, [console_log [Str "Need at least 2 shapes to align"]]).
Proof. intros H. unfold alignShapes. by rewrite decide_True. Qed.

Lemma alignShapes_horizontal_center (items : heap) :
  (2 ≤ length items)%nat →
  alignShapes "horizontal_center" items =
  (alter_loop (center_left (avgCenterX items)) (refs_of items) items, []).
Proof.
  intros H. unfold alignShapes. rewrite decide_False by lia.
  change (String.eqb "horizontal_center" "horizontal_center") with true. cbv iota zeta.
  by rewrite avgCenterX_refs, read_refs_of.
Qed.

Lemma alignShapes_vertical_center (items : heap) :
  (2 ≤ length items)%nat →
  alignShapes "vertical_center" items =
  (alter_loop (center_top (avgCenterY items)) (refs_of items) items, []).
Proof.
  intros H. unfold alignShapes. rewrite decide_False by lia.
  change (String.eqb "vertical_center" "horizontal_center") with false.
  change (String.eqb "vertical_center" "vertical_center") with true. cbv iota zeta.
  by rewrite avgCenterY_refs, read_refs_of.
Qed.

Lemma alignShapes_horizontal_distribute (items : heap) :
  (2 ≤ length items)%nat →
  alignShapes "horizontal_distribute" items =
  ((place_loop Shape.set_left Shape.width
      (distribute_gap 960 (Shape.width <$> items))
      (sort (λ a b, Shape.left (items !!! a) - Shape.left (items !!! b)) (refs_of items))
      (40, items)).2, []).
Proof.
  intros H. unfold alignShapes. rewrite decide_False by lia.
  change (String.eqb "horizontal_distribute" "horizontal_center") with false.
  change (String.eqb "horizontal_distribute" "vertical_center") with false.
  change (String.eqb "horizontal_distribute" "horizontal_distribute") with true.
  cbv iota zeta.
  by rewrite (gap_distribute_gap _ Shape.width), fmap_refs_of.
Qed.

Lemma alignShapes_vertical_distribute (items : heap) :
  (2 ≤ length items)%nat →
  alignShapes "vertical_distribute" items =
  ((place_loop Shape.set_top Shape.height
      (distribute_gap 540 (Shape.height <$> items))
      (sort (λ a b, Shape.top (items !!! a) - Shape.top (items !!! b)) (refs_of items))
      (40, items)).2, []).
Proof.
  intros H. unfold alignShapes. rewrite decide_False by lia.
  change (String.eqb "vertical_distribute" "horizontal_center") with false.
  change (String.eqb "vertical_distribute" "vertical_center") with false.
  change (String.eqb "vertical_distribute" "horizontal_distribute") with false.
  change (String.eqb "vertical_distribute" "vertical_distribute") with true.
  cbv iota zeta.
  by rewrite (gap_distribute_gap _ Shape.height), fmap_refs_of.
Qed.

Lemma known_mode_false (mode : string) :
  known_mode mode = false →
  String.eqb mode "horizontal_center" = false ∧
  String.eqb mode "vertical_center" = false ∧
  String.eqb mode "horizontal_distribute" = false ∧
  String.eqb mode "vertical_distribute" = false.
Proof.
  unfold known_mode. intros H.
  repeat (apply orb_false_elim in H as [H ?]). done.
Qed.

Lemma alignShapes_unknown (mode : string) (items : heap) :
  known_mode mode = false → (2 ≤ length items)%nat →
  alignShapes mode items = (items, []).
Proof.
  intros (H1 & H2 & H3 & H4)%known_mode_false H. unfold alignShapes.
  rewrite decide_False by lia. by rewrite H1, H2, H3, H4.
Qed.

(** ** Unfolding [arrangeShapesInOrder] by mode *)

Lemma arrange_insufficient (shapeIds : list string) (mode : string) (items : heap) :
  (length (orderedShapes items shapeIds) < 2)%nat →
  arrangeShapesInOrder shapeIds mode items =
  (items, arrange_header shapeIds mode ++ warnings items shapeIds
          ++ [console_log [Str "Need at least 2 shapes to arrange"]]).
Proof.
  unfold arrangeShapesInOrder, orderedShapes, warnings, arrange_header.
  destruct (orderedShapes_loop _ _) as [ordered warns]. cbn [fst snd]. intros H.
  rewrite decide_True by done. by rewrite <- app_assoc.
Qed.

Lemma arrange_place_loop_left (avg gap : float) (refs : list ref) (st : float * heap) :
  fold_left (λ '(currentLeft, h) r,
     let h1 := alter (Shape.set_left currentLeft) r h in
     let h2 := alter (λ shape, Shape.set_top (avg - Shape.height shape / 2) shape) r h1 in
     (currentLeft + (Shape.width (h2 !!! r) + gap), h2)) refs st
  = place_loop (place_left_centered avg) Shape.width gap refs st.
Proof.
  revert st. induction refs as [|r refs IH]; intros [cur h]; [done|].
  rewrite place_loop_cons. cbn [fold_left]. cbv zeta. rewrite IH.
  unfold place_left_centered, center_top. by rewrite list_alter_alter_eq.
Qed.

Lemma arrange_place_loop_top (avg gap : float) (refs : list ref) (st : float * heap) :
  fold_left (λ '(currentTop, h) r,
     let h1 := alter (Shape.set_top currentTop) r h in
     let h2 := alter (λ shape, Shape.set_left (avg - Shape.width shape / 2) shape) r h1 in
     (currentTop + (Shape.height (h2 !!! r) + gap), h2)) refs st
  = place_loop (place_top_centered avg) Shape.height gap refs st.
Proof.
  revert st. induction refs as [|r refs IH]; intros [cur h]; [done|].
  rewrite place_loop_cons. cbn [fold_left]. cbv zeta. rewrite IH.
  unfold place_top_centered, center_left. by rewrite list_alter_alter_eq.
Qed.

Section ArrangeUnfold.
Variable shapeIds : list string.
Variable items : heap.
Hypothesis enough_shapes : (2 ≤ length (orderedShapes items shapeIds))%nat.

Lemma arrange_horizontal_distribute :
  arrangeShapesInOrder shapeIds "horizontal_distribute" items =
  ((place_loop
      (place_left_centered (avgCenterY ((λ r, items !!! r) <$> orderedShapes items shapeIds)))
      Shape.width
      (distribute_gap 960 ((λ r, Shape.width (items !!! r)) <$> orderedShapes items shapeIds))
      (orderedShapes items shapeIds) (40, items)).2,
   arrange_done_log items shapeIds "horizontal_distribute").
Proof.
  revert enough_shapes. unfold arrange_done_log.
  unfold arrangeShapesInOrder, orderedShapes, warnings, arrange_header.
  destruct (orderedShapes_loop _ _) as [ordered warns]. cbn [fst snd]. intros H.
  rewrite decide_False by lia.
  change (String.eqb "horizontal_distribute" "horizontal_distribute") with true.
  cbv iota zeta.
  rewrite arrange_place_loop_left, avgCenterY_refs, (gap_distribute_gap _ Shape.width).
  by rewrite <- app_assoc.
Qed.

Lemma arrange_vertical_distribute :
  arrangeShapesInOrder shapeIds "vertical_distribute" items =
  ((place_loop
      (place_top_centered (avgCenterX ((λ r, items !!! r) <$> orderedShapes items shapeIds)))
      Shape.height
      (distribute_gap 540 ((λ r, Shape.height (items !!! r)) <$> orderedShapes items shapeIds))
      (orderedShapes items shapeIds) (40, items)).2,
   arrange_done_log items shapeIds "vertical_distribute").
Proof.
  revert enough_shapes. unfold arrange_done_log.
  unfold arrangeShapesInOrder, orderedShapes, warnings, arrange_header.
  destruct (orderedShapes_loop _ _) as [ordered warns]. cbn [fst snd]. intros H.
  rewrite decide_False by lia.
  change (String.eqb "vertical_distribute" "horizontal_distribute") with false.
  change (String.eqb "vertical_distribute" "vertical_distribute") with true.
  cbv iota zeta.
  rewrite arrange_place_loop_top, avgCenterX_refs, (gap_distribute_gap _ Shape.height).
  by rewrite <- app_assoc.
Qed.

Lemma arrange_horizontal_center :
  arrangeShapesInOrder shapeIds "horizontal_center" items =
  (alter_loop (center_left (avgCenterX ((λ r, items !!! r) <$> orderedShapes items shapeIds)))
     (orderedShapes items shapeIds) items,
   arrange_done_log items shapeIds "horizontal_center").
Proof.
  revert enough_shapes. unfold arrange_done_log.
  unfold arrangeShapesInOrder, orderedShapes, warnings, arrange_header.
  destruct (orderedShapes_loop _ _) as [ordered warns]. cbn [fst snd]. intros H.
  rewrite decide_False by lia.
  change (String.eqb "horizontal_center" "horizontal_distribute") with false.
  change (String.eqb "horizontal_center" "vertical_distribute") with false.
  change (String.eqb "horizontal_center" "horizontal_center") with true.
  cbv iota zeta. rewrite avgCenterX_refs. by rewrite <- app_assoc.
Qed.

Lemma arrange_vertical_center :
  arrangeShapesInOrder shapeIds "vertical_center" items =
  (alter_loop (center_top (avgCenterY ((λ r, items !!! r) <$> orderedShapes items shapeIds)))
     (orderedShapes items shapeIds) items,
   arrange_done_log items shapeIds "vertical_center").
Proof.
  revert enough_shapes. unfold arrange_done_log.
  unfold arrangeShapesInOrder, orderedShapes, warnings, arrange_header.
  destruct (orderedShapes_loop _ _) as [ordered warns]. cbn [fst snd]. intros H.
  rewrite decide_False by lia.
  change (String.eqb "vertical_center" "horizontal_distribute") with false.
  change (String.eqb "vertical_center" "vertical_distribute") with false.
  change (String.eqb "vertical_center" "horizontal_center") with false.
  change (String.eqb "vertical_center" "vertical_center") with true.
  cbv iota zeta. rewrite avgCenterY_refs. by rewrite <- app_assoc.
Qed.

Lemma arrange_unknown (mode : string) :
  known_mode mode = false →
  arrangeShapesInOrder shapeIds mode items = (items, arrange_done_log items shapeIds mode).
Proof.
  intros (H1 & H2 & H3 & H4)%known_mode_false.
  revert enough_shapes. unfold arrange_done_log.
  unfold arrangeShapesInOrder, orderedShapes, warnings, arrange_header.
  destruct (orderedShapes_loop _ _) as [ordered warns]. cbn [fst snd]. intros H.
  rewrite decide_False by lia. rewrite H1, H2, H3, H4. by rewrite <- app_assoc.
Qed.
End ArrangeUnfold.

Lemma alter_loop_refs_of (f : Shape.t → Shape.t) (items : heap) :
  (∀ s, f (f s) = f s) → alter_loop f (refs_of items) items = f <$> items.
Proof.
  intros Hf. apply list_eq. intros i.
  rewrite alter_loop_lookup, list_lookup_fmap by done.
  case_decide as Hi; [done|].
  rewrite refs_of_valid in Hi. by rewrite lookup_ge_None_2 by lia.
Qed.

Lemma alignShapes_horizontal_center_fmap (items : heap) :
  (2 ≤ length items)%nat →
  (alignShapes "horizontal_center" items).1 = center_left (avgCenterX items) <$> items.
Proof.
  intros H. rewrite alignShapes_horizontal_center by done. cbn [fst].
  apply alter_loop_refs_of, center_left_idemp.
Qed.

Lemma alignShapes_vertical_center_fmap (items : heap) :
  (2 ≤ length items)%nat →
  (alignShapes "vertical_center" items).1 = center_top (avgCenterY items) <$> items.
Proof.
  intros H. rewrite alignShapes_vertical_center by done. cbn [fst].
  apply alter_loop_refs_of, center_top_idemp.
Qed.

Lemma sorted_refs_NoDup (cmp : ref → ref → float) (items : heap) :
  NoDup (sort cmp (refs_of items)).
Proof. apply sort_seq_NoDup. Qed.

Lemma sorted_refs_valid (cmp : ref → ref → float) (items : heap) (r : ref) :
  r ∈ sort cmp (refs_of items) → (r < length items)%nat.
Proof. rewrite sort_Permutation. apply refs_of_valid. Qed.

Lemma sorted_refs_sorted (key : Shape.t → float) (items : heap) :
  (∀ s, s ∈ items → is_nan (key s) = false) →
  StronglySorted (stable_lt (λ r, key (items !!! r)))
    (sort (λ a b, key (items !!! a) - key (items !!! b)) (refs_of items)).
Proof.
  intros Hnan. apply (sort_seq_sorted (λ r, key (items !!! r))).
  intros r Hr. apply Hnan, list_elem_of_lookup. exists r.
  by apply list_lookup_lookup_total_lt.
Qed.

(** A chain of strictly increasing steps is strictly increasing. *)
Lemma chain_ltb (f : nat → float) (n k k' : nat) :
  (∀ j, (S j < n)%nat → (f j <? f (S j)) = true) →
  (k < k')%nat → (k' < n)%nat → (f k <? f k') = true.
Proof.
  intros Hstep Hk. induction Hk as [|m Hm IH]; intros Hlen.
  - by apply Hstep.
  - eapply ltb_trans; [apply IH; lia|]. by apply Hstep.
Qed.

(** ** The two distributing loops of a canvas *)

Section Distribute.
Variable place : float → Shape.t → Shape.t.
Variable extent coord : Shape.t → float.
Variable canvas : float.
Variable items : heap.
Variable refs : list ref.
Hypothesis extent_place : ∀ c s, extent (place c s) = extent s.
Hypothesis coord_place : ∀ c s, coord (place c s) = c.
Hypothesis refs_NoDup : NoDup refs.
Hypothesis refs_valid : ∀ r, r ∈ refs → (r < length items)%nat.

Lemma distribute_final_coord (k : nat) (r : ref) :
  refs !! k = Some r →
  coord (distribute_final place extent canvas refs items !!! r)
  = running extent (distribute_gap canvas ((λ r, extent (items !!! r)) <$> refs))
      items refs 40 k.
Proof.
  intros Hk. unfold distribute_final.
  by rewrite (place_loop_nth place extent _ extent_place refs _ _ k r), coord_place.
Qed.

Lemma distribute_final_increasing (k k' : nat) (a b : ref) :
  (∀ j r, (S j < length refs)%nat → refs !! j = Some r →
     let cur := running extent (distribute_gap canvas ((λ r, extent (items !!! r)) <$> refs))
                  items refs 40 j in
     (cur <? cur + (extent (items !!! r)
                    + distribute_gap canvas ((λ r, extent (items !!! r)) <$> refs))) = true) →
  (k < k')%nat → refs !! k = Some a → refs !! k' = Some b →
  (coord (distribute_final place extent canvas refs items !!! a)
   <? coord (distribute_final place extent canvas refs items !!! b)) = true.
Proof.
  intros Hstep Hk Ha Hb.
  rewrite (distribute_final_coord _ _ Ha), (distribute_final_coord _ _ Hb).
  apply (chain_ltb _ (length refs)); [|done|by eapply lookup_lt_Some].
  intros j Hj. destruct (lookup_lt_is_Some_2 refs j) as [r Hr]; [lia|].
  rewrite (running_S _ _ _ _ _ _ _ Hr). by apply Hstep.
Qed.
End Distribute.


Lemma avgCenterX_center_top (avg : float) (shapes : list Shape.t) :
  avgCenterX (center_top avg <$> shapes) = avgCenterX shapes.
Proof. unfold avgCenterX, reduce. by rewrite fold_left_fmap, length_num_fmap. Qed.

Lemma avgCenterY_center_left (avg : float) (shapes : list Shape.t) :
  avgCenterY (center_left avg <$> shapes) = avgCenterY shapes.
Proof. unfold avgCenterY, reduce. by rewrite fold_left_fmap, length_num_fmap. Qed.

(** * The claims *)

(** ** C1 *)

(** C1, as stated, fails: on [P12] the mode [horizontal_center] moves the
    first shape's left from 0 to 100 and leaves its top at 0, so that its
    vertical centre stays 25 while the mean vertical centre is 75. *)
Lemma horizontal_center_changes_left_not_top :
  ∃ s', (alignShapes "horizontal_center" P12).1 !! 0%nat = Some s'
        ∧ center_y s' ≠ mean (center_y <$> P12)
        ∧ Shape.left s' ≠ Shape.left P1
        ∧ Shape.top s' = Shape.top P1.
Proof.
  eexists. split; [vm_compute; reflexivity|].
  split; [compute_done|]. split; [compute_done|reflexivity].
Qed.

(** C1 (amended): for at least 2 shapes, [horizontal_center] sets each
    shape's left to [avgCenterX - width/2], computed in binary64, where
    [avgCenterX] is the sum of the lefts and half widths of all shapes,
    accumulated in selection order, divided by their number; it leaves
    every shape's id, top, width and height unchanged. *)
Theorem alignShapes_horizontal_center_spec (items : heap) :
  (2 ≤ length items)%nat →
  length (alignShapes "horizontal_center" items).1 = length items ∧
  ∀ i s, items !! i = Some s →
    ∃ s', (alignShapes "horizontal_center" items).1 !! i = Some s'
          ∧ Shape.left s' = avgCenterX items - Shape.width s / 2
          ∧ Shape.id s' = Shape.id s
          ∧ Shape.top s' = Shape.top s
          ∧ Shape.width s' = Shape.width s
          ∧ Shape.height s' = Shape.height s.
Proof.
  intros Hlen. rewrite alignShapes_horizontal_center_fmap by done.
  split; [by rewrite length_fmap|].
  intros i s Hs. eexists. rewrite list_lookup_fmap, Hs. split; [done|].
  by destruct s.
Qed.

Lemma alignShapes_horizontal_center_spec_witness :
  (2 ≤ length P12)%nat ∧
  length (alignShapes "horizontal_center" P12).1 = length P12 ∧
  ∀ i s, P12 !! i = Some s →
    ∃ s', (alignShapes "horizontal_center" P12).1 !! i = Some s'
          ∧ Shape.left s' = avgCenterX P12 - Shape.width s / 2
          ∧ Shape.id s' = Shape.id s
          ∧ Shape.top s' = Shape.top s
          ∧ Shape.width s' = Shape.width s
          ∧ Shape.height s' = Shape.height s.
Proof.
  assert (2 ≤ length P12)%nat as H by (cbn; lia).
  split; [exact H|]. exact (alignShapes_horizontal_center_spec P12 H).
Defined.

(** The horizontal centres after [horizontal_center] need not equal the
    average, nor each other, exactly: on [Fab] the average is
    0.19999999999999998 and the shape of width 0.1 ends with its centre at
    0.19999999999999996. *)
Example horizontal_center_rounds :
  avgCenterX Fab = 0.19999999999999998
  ∧ center_x <$> (alignShapes "horizontal_center" Fab).1
    = [0.19999999999999996; 0.19999999999999998].
Proof. split; compute_done. Qed.

(** ** C2 *)

(** C2: for at least 2 shapes, [horizontal_distribute] visits the shapes in
    an order that, when no left is NaN, is the stable ascending order of
    their current lefts; it puts the first at the margin 40 and every next
    one at the previous left plus (the previous width plus [gap]), with
    [gap = (960 - 2*40 - sum of widths) / (count - 1)] and the widths summed
    in selection order, whatever the sign of the gap; it changes no width.
    All operations are those of binary64, associated as in the source. *)
Theorem alignShapes_horizontal_distribute_spec (items : heap) :
  (2 ≤ length items)%nat →
  let sorted :=
    sort (λ a b, Shape.left (items !!! a) - Shape.left (items !!! b)) (refs_of items) in
  let gap :=
    (960 - 2 * 40 - sum_list (Shape.width <$> items)) / (length_num items - 1) in
  let final := (alignShapes "horizontal_distribute" items).1 in
  sorted ≡ₚ refs_of items
  ∧ ((∀ s, s ∈ items → is_nan (Shape.left s) = false) →
     StronglySorted (stable_lt (λ r, Shape.left (items !!! r))) sorted)
  ∧ (∃ first, sorted !! 0%nat = Some first ∧ Shape.left (final !!! first) = 40)
  ∧ (∀ k prev next, sorted !! k = Some prev → sorted !! S k = Some next →
       Shape.left (final !!! next)
       = Shape.left (final !!! prev) + (Shape.width (items !!! prev) + gap))
  ∧ length final = length items
  ∧ (∀ i, Shape.width (final !!! i) = Shape.width (items !!! i)).
Proof.
  intros Hlen sorted gap final.
  assert (final = (place_loop Shape.set_left Shape.width gap sorted (40, items)).2)
    as Hfinal.
  { subst final. rewrite alignShapes_horizontal_distribute by done. cbn [fst].
    subst gap. unfold distribute_gap. by rewrite length_num_fmap. }
  assert (∀ k r, sorted !! k = Some r →
    final !!! r = Shape.set_left (running Shape.width gap items sorted 40 k) (items !!! r))
    as Hnth.
  { intros k r Hk. rewrite Hfinal. apply place_loop_nth; try done.
    - apply sorted_refs_NoDup.
    - apply sorted_refs_valid. }
  split; [apply sort_Permutation|].
  split; [apply (sorted_refs_sorted Shape.left)|].
  split.
  { destruct sorted as [|first rest] eqn:Hsorted.
    - pose proof (Permutation_length (sort_Permutation
        (λ a b, Shape.left (items !!! a) - Shape.left (items !!! b)) (refs_of items))) as HL.
      fold sorted in HL. rewrite Hsorted in HL. unfold refs_of in HL.
      rewrite length_seq in HL. cbn in HL. lia.
    - exists first. split; [done|]. by rewrite (Hnth 0%nat first). }
  split.
  { intros k prev next Hprev Hnext.
    rewrite (Hnth _ _ Hnext), (Hnth _ _ Hprev). cbn [Shape.left Shape.set_left].
    by apply running_S. }
  split; [by rewrite Hfinal, place_loop_length|].
  intros i. rewrite Hfinal.
  by destruct (place_loop_frame Shape.set_left Shape.width gap same_but_left
            sorted 40 items i same_but_left_refl same_but_left_trans
            (λ c s, ltac:(done)))
    as (_ & _ & ? & _).
Qed.

Lemma alignShapes_horizontal_distribute_spec_witness :
  (2 ≤ length ABC)%nat ∧
  let items := ABC in
  let sorted :=
    sort (λ a b, Shape.left (items !!! a) - Shape.left (items !!! b)) (refs_of items) in
  let gap :=
    (960 - 2 * 40 - sum_list (Shape.width <$> items)) / (length_num items - 1) in
  let final := (alignShapes "horizontal_distribute" items).1 in
  sorted ≡ₚ refs_of items
  ∧ StronglySorted (stable_lt (λ r, Shape.left (items !!! r))) sorted
  ∧ (∃ first, sorted !! 0%nat = Some first ∧ Shape.left (final !!! first) = 40)
  ∧ (∀ k prev next, sorted !! k = Some prev → sorted !! S k = Some next →
       Shape.left (final !!! next)
       = Shape.left (final !!! prev) + (Shape.width (items !!! prev) + gap))
  ∧ length final = length items
  ∧ (∀ i, Shape.width (final !!! i) = Shape.width (items !!! i)).
Proof.
  assert (2 ≤ length ABC)%nat as H by (cbn; lia).
  split; [exact H|].
  destruct (alignShapes_horizontal_distribute_spec ABC H) as (H1 & H2 & H3).
  split; [exact H1|]. split; [|exact H3].
  apply H2. intros s Hs. unfold ABC in Hs. rewrite !elem_of_cons, elem_of_nil in Hs.
  destruct Hs as [->|[->|[->|[]]]]; reflexivity.
Defined.

(** A negative gap is used as it is: on [Wabc] the gap is -70. *)
Example alignShapes_negative_gap :
  distribute_gap 960 (Shape.width <$> Wabc) = -70
  ∧ (λ s, (Shape.id s, Shape.left s))
      <$> (alignShapes "horizontal_distribute" Wabc).1
    = [("a", -80); ("b", 40); ("c", -20)].
Proof. split; compute_done. Qed.

(** The additions round: on [Rabcd] (widths 1, 1, 53, 59) the gap is
    255.33333333333334, and the right edge of the last shape ends just
    beyond 960 - 40. *)
Example alignShapes_horizontal_distribute_rounds :
  distribute_gap 960 (Shape.width <$> Rabcd) = 255.33333333333334
  ∧ Shape.left <$> (alignShapes "horizontal_distribute" Rabcd).1
    = [40; 296.33333333333337; 552.66666666666674; 861.00000000000011]
  ∧ 861.00000000000011 + 59 = 920.00000000000011
  ∧ (920 <? 920.00000000000011) = true.
Proof. repeat split; compute_done. Qed.

(** ** C3 *)

(** C3, as stated, fails: the lefts are not 40, 430, 820. *)
Lemma arrange_ABC_lefts_not_as_stated :
  Shape.left <$> (arrangeShapesInOrder ["A"; "B"; "C"] "horizontal_distribute" ABC).1
  ≠ [40; 430; 820].
Proof. compute_done. Qed.

(** C3 (amended): on shapes A, B, C with order [A, B, C] and
    [horizontal_distribute], the gap is (880 - 150)/2 = 365 and the final
    lefts are A: 40, B: 40 + 50 + 365 = 455, C: 455 + 50 + 365 = 870; the
    right edge of C is at 920 = 960 - 40. *)
Theorem arrange_ABC_lefts :
  distribute_gap 960 (Shape.width <$> ABC) = 365
  ∧ Shape.left <$> (arrangeShapesInOrder ["A"; "B"; "C"] "horizontal_distribute" ABC).1
    = [40; 455; 870]
  ∧ Shape.id <$> (arrangeShapesInOrder ["A"; "B"; "C"] "horizontal_distribute" ABC).1
    = ["A"; "B"; "C"]
  ∧ orderedShapes ABC ["A"; "B"; "C"] = [0; 1; 2]%nat.
Proof.
  split; [compute_done|]. split; [compute_done|]. split; [compute_done|].
  vm_compute. reflexivity.
Qed.

(** ** C4 *)

(** C4, as stated, fails: with order [c, a, b] on [Wabc] the gap is
    (880 - 1020)/2 = -70, so "c" is put at 40, "a" at 40 + 10 - 70 = -20 and
    "b" at -20 + 1000 - 70 = 910: the shape named second ends left of the
    shape named first. *)
Lemma arrange_order_not_left_to_right :
  (λ s, (Shape.id s, Shape.left s))
    <$> (arrangeShapesInOrder ["c"; "a"; "b"] "horizontal_distribute" Wabc).1
  = [("a", -20); ("b", 910); ("c", 40)]
  ∧ (Shape.left ((arrangeShapesInOrder ["c"; "a"; "b"] "horizontal_distribute" Wabc).1 !!! 0%nat)
     <? Shape.left ((arrangeShapesInOrder ["c"; "a"; "b"] "horizontal_distribute" Wabc).1 !!! 2%nat))
    = true.
Proof. split; compute_done. Qed.

(** C4 (amended): when the order list resolves to at least 2 pairwise
    distinct shapes, [horizontal_distribute] puts the first resolved shape
    at left 40 and every next one at the left of the shape before it in the
    order list plus (that shape's width plus [gap]), whatever the original
    lefts and whatever the sign of the gap: the k-th resolved shape gets the
    value [currentLeft k] that k such additions build up from 40.  The
    final lefts increase strictly along the order list if and only if each
    of these additions but the last increases the running left. *)
Theorem arrange_horizontal_distribute_order (items : heap) (shapeIds : list string) :
  let ordered := orderedShapes items shapeIds in
  let gap :=
    (960 - 2 * 40 - sum_list ((λ r, Shape.width (items !!! r)) <$> ordered))
    / (length_num ordered - 1) in
  let final := (arrangeShapesInOrder shapeIds "horizontal_distribute" items).1 in
  let currentLeft := running Shape.width gap items ordered 40 in
  (2 ≤ length ordered)%nat →
  NoDup ordered →
  ordered = omap (λ id, shapeMap items !! id) shapeIds
  ∧ (∀ id r, shapeMap items !! id = Some r → Shape.id (final !!! r) = id)
  ∧ (∀ k r, ordered !! k = Some r → Shape.left (final !!! r) = currentLeft k)
  ∧ (∀ first, ordered !! 0%nat = Some first → Shape.left (final !!! first) = 40)
  ∧ (∀ k prev next, ordered !! k = Some prev → ordered !! S k = Some next →
       Shape.left (final !!! next)
       = Shape.left (final !!! prev) + (Shape.width (items !!! prev) + gap))
  ∧ ((∀ k k' a b, (k < k')%nat → ordered !! k = Some a → ordered !! k' = Some b →
        (Shape.left (final !!! a) <? Shape.left (final !!! b)) = true)
     ↔ (∀ k r, (S k < length ordered)%nat → ordered !! k = Some r →
          (currentLeft k <? currentLeft k + (Shape.width (items !!! r) + gap)) = true)).
Proof.
  intros ordered gap final currentLeft Hlen Hnd.
  assert (gap = distribute_gap 960 ((λ r, Shape.width (items !!! r)) <$> ordered))
    as Hgap by (subst gap; unfold distribute_gap; by rewrite length_num_fmap).
  assert (final = distribute_final
      (place_left_centered (avgCenterY ((λ r, items !!! r) <$> ordered)))
      Shape.width 960 ordered items) as Hfinal
    by (subst final; by rewrite arrange_horizontal_distribute).
  assert (∀ k r, ordered !! k = Some r → Shape.left (final !!! r) = currentLeft k)
    as Hnth.
  { intros k r Hk. subst currentLeft. rewrite Hfinal, Hgap.
    apply (distribute_final_coord _ Shape.width Shape.left); try done.
    apply orderedShapes_valid. }
  split; [apply orderedShapes_omap|].
  split.
  { intros id r [Hr Hid]%shapeMap_lookup. rewrite Hfinal. unfold distribute_final.
    destruct (place_loop_frame
      (place_left_centered (avgCenterY ((λ r, items !!! r) <$> ordered)))
      Shape.width (distribute_gap 960 ((λ r, Shape.width (items !!! r)) <$> ordered))
      same_size ordered 40 items r
      same_size_refl same_size_trans (λ c s, ltac:(done))) as (-> & _). done. }
  split; [done|].
  split; [intros first Hfirst; by rewrite (Hnth _ _ Hfirst)|].
  split.
  { intros k prev next Hprev Hnext. rewrite (Hnth _ _ Hnext), (Hnth _ _ Hprev).
    by apply running_S. }
  split.
  - intros Hall k r Hk Hr.
    destruct (lookup_lt_is_Some_2 ordered (S k)) as [r' Hr']; [lia|].
    pose proof (Hall k (S k) r r' (Nat.lt_succ_diag_r k) Hr Hr') as H.
    rewrite (Hnth _ _ Hr), (Hnth _ _ Hr') in H. subst currentLeft. cbv beta in *.
    by rewrite (running_S _ _ _ _ _ _ _ Hr) in H.
  - intros Hstep k k' a b Hk Ha Hb. rewrite Hfinal.
    apply (distribute_final_increasing
             (place_left_centered (avgCenterY ((λ r, items !!! r) <$> ordered)))
             Shape.width Shape.left 960 items ordered
             (λ _ _, eq_refl) (λ _ _, eq_refl) Hnd (orderedShapes_valid _ _) k k');
      try done.
    intros j r Hj Hr. cbv zeta. rewrite <- Hgap. by apply Hstep.
Qed.

Lemma arrange_horizontal_distribute_order_witness :
  ((Shape.left ((arrangeShapesInOrder ["C"; "A"; "B"] "horizontal_distribute" ABC).1 !!! 2%nat)
    <? Shape.left ((arrangeShapesInOrder ["C"; "A"; "B"] "horizontal_distribute" ABC).1 !!! 0%nat))
   = true
   ∧ (Shape.left ((arrangeShapesInOrder ["C"; "A"; "B"] "horizontal_distribute" ABC).1 !!! 0%nat)
      <? Shape.left ((arrangeShapesInOrder ["C"; "A"; "B"] "horizontal_distribute" ABC).1 !!! 1%nat))
     = true)
  ∧ (∀ k r, orderedShapes Wabc ["c"; "a"; "b"] !! k = Some r →
       Shape.left ((arrangeShapesInOrder ["c"; "a"; "b"] "horizontal_distribute" Wabc).1 !!! r)
       = running Shape.width (-70) Wabc [2; 0; 1]%nat 40 k).
Proof.
  assert (orderedShapes ABC ["C"; "A"; "B"] = [2; 0; 1]%nat) as Ho
    by (vm_compute; reflexivity).
  assert (orderedShapes Wabc ["c"; "a"; "b"] = [2; 0; 1]%nat) as Hw
    by (vm_compute; reflexivity).
  split.
  - destruct (arrange_horizontal_distribute_order ABC ["C"; "A"; "B"])
      as (_ & _ & _ & _ & _ & Hlt).
    + rewrite Ho. cbn. lia.
    + rewrite Ho. compute_done.
    + rewrite Ho in Hlt.
      assert (∀ k k' a b, (k < k')%nat → [2; 0; 1]%nat !! k = Some a →
                [2; 0; 1]%nat !! k' = Some b →
                (Shape.left ((arrangeShapesInOrder ["C"; "A"; "B"]
                                "horizontal_distribute" ABC).1 !!! a)
                 <? Shape.left ((arrangeShapesInOrder ["C"; "A"; "B"]
                                   "horizontal_distribute" ABC).1 !!! b)) = true) as Hlt'.
      { apply (proj2 Hlt). intros k r Hk Hr.
        destruct k as [|[|k]]; cbn in Hk, Hr; [injection Hr as <-..|lia]; reflexivity. }
      split; [apply (Hlt' 0 1)%nat|apply (Hlt' 1 2)%nat]; (lia || reflexivity).
  - destruct (arrange_horizontal_distribute_order Wabc ["c"; "a"; "b"])
      as (_ & _ & Hnth & _).
    + rewrite Hw. cbn. lia.
    + rewrite Hw. compute_done.
    + rewrite Hw in Hnth. intros k r Hk. rewrite Hw in Hk.
      rewrite (Hnth k r Hk). reflexivity.
Defined.

(** That [width + gap] is positive is not enough for the lefts to increase:
    on [Tab] the first shape has the width 1e-20 and the gap is 0, and both
    shapes end at left 40. *)
Example arrange_positive_step_absorbed :
  (0 <? Shape.width Ta + distribute_gap 960 (Shape.width <$> Tab)) = true
  ∧ Shape.left <$> (arrangeShapesInOrder ["a"; "b"] "horizontal_distribute" Tab).1
    = [40; 40].
Proof. split; compute_done. Qed.

(** An identifier named twice is placed twice and keeps its last place:
    with order [A, B, A] the shape "A" ends right of "B". *)
Example arrange_repeated_id_keeps_last_place :
  orderedShapes ABC ["A"; "B"; "A"] = [0; 1; 0]%nat
  ∧ (λ s, (Shape.id s, Shape.left s))
      <$> (arrangeShapesInOrder ["A"; "B"; "A"] "horizontal_distribute" ABC).1
    = [("A", 870); ("B", 455); ("C", 250)].
Proof. split; compute_done. Qed.

(** ** C5 *)

(** C5, as stated, fails by rounding: on [Fab] with order [a, b] the mean
    vertical centre is 0.19999999999999998 (however it is summed), and
    [horizontal_distribute] leaves the shape of height 0.1 with its vertical
    centre at 0.19999999999999996; [vertical_distribute] does the same to
    its horizontal centre. *)
Lemma arrange_cross_axis_centre_rounds :
  orderedShapes Fab ["a"; "b"] = [0; 1]%nat
  ∧ mean (center_y <$> Fab) = 0.19999999999999998
  ∧ avgCenterY Fab = 0.19999999999999998
  ∧ center_y ((arrangeShapesInOrder ["a"; "b"] "horizontal_distribute" Fab).1 !!! 0%nat)
    = 0.19999999999999996
  ∧ center_y ((arrangeShapesInOrder ["a"; "b"] "horizontal_distribute" Fab).1 !!! 0%nat)
    ≠ mean (center_y <$> Fab)
  ∧ center_x ((arrangeShapesInOrder ["a"; "b"] "vertical_distribute" Fab).1 !!! 0%nat)
    ≠ mean (center_x <$> Fab).
Proof. repeat split; compute_done. Qed.

(** C5 (amended): when the order list resolves to at least 2 shapes, the
    ordered [horizontal_distribute] sets the top of every placed shape to
    [avgCenterY - height/2], computed in binary64, where [avgCenterY] is the
    sum of the pre-call tops and half heights of the resolved shapes,
    accumulated in the sequence of the order list, divided by their number;
    the ordered [vertical_distribute] sets the left of every placed shape
    to [avgCenterX - width/2] in the same way.  The centre of a placed shape
    need not equal the mean centre exactly. *)
Theorem arrange_distribute_cross_axis (items : heap) (shapeIds : list string) :
  let ordered := orderedShapes items shapeIds in
  (2 ≤ length ordered)%nat →
  (∀ r, r ∈ ordered →
     Shape.top ((arrangeShapesInOrder shapeIds "horizontal_distribute" items).1 !!! r)
     = avgCenterY ((λ r', items !!! r') <$> ordered) - Shape.height (items !!! r) / 2)
  ∧ (∀ r, r ∈ ordered →
     Shape.left ((arrangeShapesInOrder shapeIds "vertical_distribute" items).1 !!! r)
     = avgCenterX ((λ r', items !!! r') <$> ordered) - Shape.width (items !!! r) / 2).
Proof.
  intros ordered Hlen. split; intros r Hr.
  - rewrite arrange_horizontal_distribute by done. cbn [fst].
    rewrite <- (proj2 (proj2 (place_loop_frame
      (place_left_centered (avgCenterY ((λ r, items !!! r) <$> ordered)))
      Shape.width (distribute_gap 960 ((λ r, Shape.width (items !!! r)) <$> ordered))
      same_size ordered 40 items r
      same_size_refl same_size_trans (λ c s, ltac:(done))))).
    apply (place_loop_visited _ _ _ (λ s, Shape.top s = _ - Shape.height s / 2));
      [done|done|].
    by apply orderedShapes_valid in Hr.
  - rewrite arrange_vertical_distribute by done. cbn [fst].
    rewrite <- (proj1 (proj2 (place_loop_frame
      (place_top_centered (avgCenterX ((λ r, items !!! r) <$> ordered)))
      Shape.height (distribute_gap 540 ((λ r, Shape.height (items !!! r)) <$> ordered))
      same_size ordered 40 items r
      same_size_refl same_size_trans (λ c s, ltac:(done))))).
    apply (place_loop_visited _ _ _ (λ s, Shape.left s = _ - Shape.width s / 2));
      [done|done|].
    by apply orderedShapes_valid in Hr.
Qed.

Lemma arrange_distribute_cross_axis_witness :
  (2 ≤ length (orderedShapes Wabc ["c"; "a"; "b"]))%nat
  ∧ (∀ r, r ∈ orderedShapes Wabc ["c"; "a"; "b"] →
     Shape.top ((arrangeShapesInOrder ["c"; "a"; "b"] "horizontal_distribute" Wabc).1 !!! r)
     = avgCenterY ((λ r', Wabc !!! r') <$> orderedShapes Wabc ["c"; "a"; "b"])
       - Shape.height (Wabc !!! r) / 2)
  ∧ (∀ r, r ∈ orderedShapes Wabc ["c"; "a"; "b"] →
     Shape.left ((arrangeShapesInOrder ["c"; "a"; "b"] "vertical_distribute" Wabc).1 !!! r)
     = avgCenterX ((λ r', Wabc !!! r') <$> orderedShapes Wabc ["c"; "a"; "b"])
       - Shape.width (Wabc !!! r) / 2).
Proof.
  assert (2 ≤ length (orderedShapes Wabc ["c"; "a"; "b"]))%nat as H
    by (vm_compute; lia).
  split; [exact H|]. exact (arrange_distribute_cross_axis Wabc ["c"; "a"; "b"] H).
Defined.

(** ** C6 *)

(** The heap left by [arrangeShapesInOrder] depends on the order list only
    through the shapes it resolves to. *)
Lemma arrange_heap_ordered (ids ids' : list string) (mode : string) (items : heap) :
  orderedShapes items ids = orderedShapes items ids' →
  (arrangeShapesInOrder ids mode items).1 = (arrangeShapesInOrder ids' mode items).1.
Proof.
  unfold arrangeShapesInOrder, orderedShapes.
  destruct (orderedShapes_loop _ ids) as [o w], (orderedShapes_loop _ ids') as [o' w'].
  cbn [fst]. intros ->. by case_decide.
Qed.

(** Visiting the selected objects of [items] in place and then reading
    them is the same as reading them first and running the loop on the
    copy, for the centring assignments. *)
Lemma alter_loop_read (f : Shape.t → Shape.t) (items : heap) (sel : list ref) :
  (∀ s, f (f s) = f s) → (∀ r, r ∈ sel → (r < length items)%nat) →
  (λ r, alter_loop f sel items !!! r) <$> sel = f <$> ((λ r, items !!! r) <$> sel).
Proof.
  intros Hf Hval. rewrite <- list_fmap_compose. apply list_fmap_ext.
  intros i r Hr. cbn.
  assert (r ∈ sel) as Hin by (apply list_elem_of_lookup; eauto).
  apply list_lookup_total_correct. rewrite alter_loop_lookup, decide_True by done.
  by rewrite (list_lookup_lookup_total_lt items r) by auto.
Qed.

(** C6, as stated, fails: the centring modes depend on the sequence of the
    order list, because the average is a binary64 sum taken in that
    sequence.  On [Gab] the order lists [b, a] and [a, b] resolve to the
    same two shapes; [horizontal_center] gives the lefts
    0.099999999999999978 and 0.29999999999999999 with the first and
    0.10000000000000003 and 0.30000000000000004 with the second, which is
    also what [alignShapes] gives. *)
Lemma arrange_center_depends_on_order :
  orderedShapes Gab ["b"; "a"] ≡ₚ orderedShapes Gab ["a"; "b"]
  ∧ Shape.left <$> (arrangeShapesInOrder ["b"; "a"] "horizontal_center" Gab).1
    = [0.099999999999999978; 0.29999999999999999]
  ∧ Shape.left <$> (arrangeShapesInOrder ["a"; "b"] "horizontal_center" Gab).1
    = [0.10000000000000003; 0.30000000000000004]
  ∧ Shape.left <$> (alignShapes "horizontal_center" Gab).1
    = [0.10000000000000003; 0.30000000000000004]
  ∧ (arrangeShapesInOrder ["b"; "a"] "horizontal_center" Gab).1
    ≠ (alignShapes "horizontal_center" Gab).1
  ∧ (arrangeShapesInOrder ["b"; "a"] "vertical_center" Gab).1
    ≠ (alignShapes "vertical_center" Gab).1.
Proof.
  split; [|repeat split; compute_done].
  assert (orderedShapes Gab ["b"; "a"] = [1; 0]%nat) as -> by (vm_compute; reflexivity).
  assert (orderedShapes Gab ["a"; "b"] = [0; 1]%nat) as -> by (vm_compute; reflexivity).
  apply perm_swap.
Qed.

(** C6 (amended): when the order list resolves to at least 2 pairwise
    distinct shapes, the ordered [horizontal_center] and [vertical_center]
    leave the resolved shapes exactly where the unordered operation leaves
    them when it is applied to those shapes selected in the sequence of the
    order list, and touch no other shape; in particular, an order list that
    resolves to all the shapes in their own sequence gives the heap of the
    unordered operation. *)
Theorem arrange_center_refines_align (items : heap) (shapeIds : list string)
    (mode : string) :
  mode = "horizontal_center" ∨ mode = "vertical_center" →
  (2 ≤ length (orderedShapes items shapeIds))%nat →
  NoDup (orderedShapes items shapeIds) →
  (λ r, (arrangeShapesInOrder shapeIds mode items).1 !!! r) <$> orderedShapes items shapeIds
  = (alignShapes mode ((λ r, items !!! r) <$> orderedShapes items shapeIds)).1
  ∧ (∀ r, r ∉ orderedShapes items shapeIds →
       (arrangeShapesInOrder shapeIds mode items).1 !! r = items !! r)
  ∧ (orderedShapes items shapeIds = refs_of items →
       (arrangeShapesInOrder shapeIds mode items).1 = (alignShapes mode items).1).
Proof.
  intros Hmode Hlen _.
  assert (2 ≤ length ((λ r, items !!! r) <$> orderedShapes items shapeIds))%nat as Hlen'
    by by rewrite length_fmap.
  pose proof (orderedShapes_valid items shapeIds) as Hval.
  destruct Hmode as [-> | ->].
  - rewrite arrange_horizontal_center, alignShapes_horizontal_center_fmap by done.
    cbn [fst]. split; [|split].
    + apply alter_loop_read; [apply center_left_idemp|done].
    + intros r Hr. apply alter_loop_notin; [apply center_left_idemp|done].
    + intros Hall. rewrite Hall, read_refs_of.
      rewrite alignShapes_horizontal_center_fmap
        by (rewrite Hall in Hlen; unfold refs_of in Hlen; by rewrite length_seq in Hlen).
      apply alter_loop_refs_of, center_left_idemp.
  - rewrite arrange_vertical_center, alignShapes_vertical_center_fmap by done.
    cbn [fst]. split; [|split].
    + apply alter_loop_read; [apply center_top_idemp|done].
    + intros r Hr. apply alter_loop_notin; [apply center_top_idemp|done].
    + intros Hall. rewrite Hall, read_refs_of.
      rewrite alignShapes_vertical_center_fmap
        by (rewrite Hall in Hlen; unfold refs_of in Hlen; by rewrite length_seq in Hlen).
      apply alter_loop_refs_of, center_top_idemp.
Qed.

Lemma arrange_center_refines_align_witness :
  (2 ≤ length (orderedShapes Wabc ["c"; "a"; "b"]))%nat
  ∧ NoDup (orderedShapes Wabc ["c"; "a"; "b"])
  ∧ (λ r, (arrangeShapesInOrder ["c"; "a"; "b"] "horizontal_center" Wabc).1 !!! r)
      <$> orderedShapes Wabc ["c"; "a"; "b"]
    = (alignShapes "horizontal_center"
         ((λ r, Wabc !!! r) <$> orderedShapes Wabc ["c"; "a"; "b"])).1.
Proof.
  assert (orderedShapes Wabc ["c"; "a"; "b"] = [2; 0; 1]%nat) as Ho
    by (vm_compute; reflexivity).
  assert (2 ≤ length (orderedShapes Wabc ["c"; "a"; "b"]))%nat as Hlen
    by (rewrite Ho; cbn; lia).
  assert (NoDup (orderedShapes Wabc ["c"; "a"; "b"])) as Hnd
    by (rewrite Ho; compute_done).
  split; [exact Hlen|]. split; [exact Hnd|].
  exact (proj1 (arrange_center_refines_align Wabc ["c"; "a"; "b"] "horizontal_center"
                  (or_introl eq_refl) Hlen Hnd)).
Defined.

(** An identifier named twice counts twice in the average: on [P12] the
    order list [p1, p1, p2] centres on (50 + 50 + 250)/3, not on the 150 of
    the unordered operation. *)
Example arrange_center_repeated_id :
  orderedShapes P12 ["p1"; "p1"; "p2"] = [0; 0; 1]%nat
  ∧ Shape.left <$> (alignShapes "horizontal_center" P12).1 = [100; 100]
  ∧ Shape.left <$> (arrangeShapesInOrder ["p1"; "p1"; "p2"] "horizontal_center" P12).1
    ≠ [100; 100].
Proof. repeat split; compute_done. Qed.

(** ** C7 *)

(** C7, as stated, fails in its last part: an unrecognized mode is not
    signalled.  On [P12] the unordered operation with the mode "diagonal"
    leaves the shapes alone and writes nothing to the console, exactly the
    console of a successful call. *)
Lemma unknown_mode_not_signalled :
  known_mode "diagonal" = false
  ∧ alignShapes "diagonal" P12 = (P12, [])
  ∧ (alignShapes "diagonal" P12).2 = (alignShapes "horizontal_center" P12).2.
Proof. repeat split; compute_done. Qed.

(** C7 (amended): no shape field is mutated when the input is insufficient
    or the mode is not one of the four.  With fewer than 2 shapes
    [alignShapes] only logs "Need at least 2 shapes to align"; with fewer
    than 2 resolved shapes [arrangeShapesInOrder] only logs its header, the
    warnings and "Need at least 2 shapes to arrange"; with an unrecognized
    mode and enough shapes both return normally with the shapes unchanged,
    [alignShapes] writing nothing and [arrangeShapesInOrder] only its usual
    header, warnings and "Arrangement complete". *)
Theorem bad_input_no_mutation (mode : string) (items : heap) (shapeIds : list string) :
  ((length items < 2)%nat →
     alignShapes mode items
     = (items, [console_log [Str "Need at least 2 shapes to align"]]))
  ∧ (known_mode mode = false → (2 ≤ length items)%nat →
     alignShapes mode items = (items, []))
  ∧ ((length (orderedShapes items shapeIds) < 2)%nat →
     arrangeShapesInOrder shapeIds mode items
     = (items, arrange_header shapeIds mode ++ warnings items shapeIds
               ++ [console_log [Str "Need at least 2 shapes to arrange"]]))
  ∧ (known_mode mode = false → (2 ≤ length (orderedShapes items shapeIds))%nat →
     arrangeShapesInOrder shapeIds mode items
     = (items, arrange_header shapeIds mode ++ warnings items shapeIds
               ++ [console_log [Str "Arrangement complete"]])).
Proof.
  split; [apply alignShapes_insufficient|].
  split; [apply alignShapes_unknown|].
  split; [apply arrange_insufficient|].
  intros Hmode Hlen. by apply arrange_unknown.
Qed.

Lemma bad_input_no_mutation_witness :
  (alignShapes "horizontal_center" [P1]).1 = [P1]
  ∧ (alignShapes "diagonal" P12).1 = P12
  ∧ (arrangeShapesInOrder ["p1"; "zz"] "horizontal_distribute" P12).1 = P12
  ∧ (arrangeShapesInOrder ["p2"; "p1"] "diagonal" P12).1 = P12.
Proof.
  destruct (bad_input_no_mutation "horizontal_center" [P1] []) as (H1 & _).
  destruct (bad_input_no_mutation "diagonal" P12 ["p2"; "p1"]) as (_ & H2 & _ & H4).
  destruct (bad_input_no_mutation "horizontal_distribute" P12 ["p1"; "zz"])
    as (_ & _ & H3 & _).
  split; [rewrite H1; [reflexivity|cbn; lia]|].
  split; [rewrite H2; [reflexivity|reflexivity|cbn; lia]|].
  split; [rewrite H3; [reflexivity|vm_compute; lia]|].
  rewrite H4; [reflexivity|reflexivity|vm_compute; lia].
Defined.

(** ** C8 *)

Lemma omap_filter_is_Some {A B} (f : A → option B) (l : list A) :
  omap f (filter (λ x, is_Some (f x)) l) = omap f l.
Proof.
  induction l as [|x l IH]; [done|].
  rewrite filter_cons. destruct (f x) as [y|] eqn:Hx.
  - rewrite decide_True by done. cbn. by rewrite Hx, IH.
  - rewrite decide_False by (by intros [? ?]). cbn. by rewrite Hx.
Qed.

Lemma filter_None_filter_is_Some {A B} (f : A → option B) (l : list A) :
  filter (λ x, f x = None) (filter (λ x, is_Some (f x)) l) = [].
Proof.
  induction l as [|x l IH]; [done|].
  rewrite filter_cons. destruct (f x) as [y|] eqn:Hx.
  - rewrite decide_True by done. rewrite filter_cons, decide_False; [done|].
    by rewrite Hx.
  - by rewrite decide_False by (by intros [? ?]).
Qed.

Lemma arrange_console (shapeIds : list string) (mode : string) (items : heap) :
  (arrangeShapesInOrder shapeIds mode items).2
  = arrange_header shapeIds mode ++ warnings items shapeIds
    ++ [console_log [Str (if decide (length (orderedShapes items shapeIds) < 2)%nat
                          then "Need at least 2 shapes to arrange"
                          else "Arrangement complete")]].
Proof.
  unfold arrangeShapesInOrder, orderedShapes, warnings, arrange_header.
  destruct (orderedShapes_loop _ _) as [ordered warns]. cbn [fst snd].
  case_decide; cbn [snd]; by rewrite <- app_assoc.
Qed.

(** C8: every identifier of the order list that matches no shape is
    skipped with one warning on the console, the call still runs to its
    end, and the shapes are left exactly as by the call whose order list
    holds only the identifiers that resolve, in the same sequence. *)
Theorem arrange_skips_unresolved (items : heap) (shapeIds : list string) (mode : string) :
  let resolving := filter (λ id, is_Some (shapeMap items !! id)) shapeIds in
  orderedShapes items shapeIds = omap (λ id, shapeMap items !! id) shapeIds
  ∧ orderedShapes items resolving = orderedShapes items shapeIds
  ∧ (arrangeShapesInOrder shapeIds mode items).1
    = (arrangeShapesInOrder resolving mode items).1
  ∧ warnings items shapeIds
    = warning_for <$> filter (λ id, shapeMap items !! id = None) shapeIds
  ∧ warnings items resolving = []
  ∧ (arrangeShapesInOrder shapeIds mode items).2
    = arrange_header shapeIds mode ++ warnings items shapeIds
      ++ [console_log [Str (if decide (length (orderedShapes items shapeIds) < 2)%nat
                            then "Need at least 2 shapes to arrange"
                            else "Arrangement complete")]].
Proof.
  intros resolving.
  assert (orderedShapes items resolving = orderedShapes items shapeIds) as Heq.
  { rewrite !orderedShapes_omap. apply omap_filter_is_Some. }
  split; [apply orderedShapes_omap|]. split; [done|].
  split; [by apply arrange_heap_ordered|].
  split; [apply warnings_filter|].
  split; [|apply arrange_console].
  rewrite warnings_filter. subst resolving.
  by rewrite (filter_None_filter_is_Some (λ id, shapeMap items !! id)).
Qed.

(** On [ABC] the unknown identifier "Z" costs one warning and the other
    two shapes are distributed. *)
Example arrange_unresolved_example :
  arrangeShapesInOrder ["A"; "Z"; "C"] "horizontal_distribute" ABC
  = ([Shape.mk "A" 40 0 50 50; shapeB; Shape.mk "C" 870 0 50 50],
     [console_log [Str "Arranging 3 shapes with alignment: horizontal_distribute"];
      console_log [Str "Shape order:"; StrArray ["A"; "Z"; "C"]];
      console_warn [Str "Shape with id Z not found"];
      console_log [Str "Arrangement complete"]]).
Proof. compute_done. Qed.

(** ** C9 *)




(** ** C10 *)

(** C10: for at least 2 shapes, the unordered [horizontal_distribute]
    changes no shape's id, top, width or height, and the unordered
    [vertical_distribute] changes no shape's id, left, width or height. *)
Theorem alignShapes_distribute_frame (items : heap) :
  (2 ≤ length items)%nat →
  (length (alignShapes "horizontal_distribute" items).1 = length items
   ∧ ∀ i, Shape.id ((alignShapes "horizontal_distribute" items).1 !!! i)
            = Shape.id (items !!! i)
          ∧ Shape.top ((alignShapes "horizontal_distribute" items).1 !!! i)
            = Shape.top (items !!! i)
          ∧ Shape.width ((alignShapes "horizontal_distribute" items).1 !!! i)
            = Shape.width (items !!! i)
          ∧ Shape.height ((alignShapes "horizontal_distribute" items).1 !!! i)
            = Shape.height (items !!! i))
  ∧ (length (alignShapes "vertical_distribute" items).1 = length items
     ∧ ∀ i, Shape.id ((alignShapes "vertical_distribute" items).1 !!! i)
              = Shape.id (items !!! i)
            ∧ Shape.left ((alignShapes "vertical_distribute" items).1 !!! i)
              = Shape.left (items !!! i)
            ∧ Shape.width ((alignShapes "vertical_distribute" items).1 !!! i)
              = Shape.width (items !!! i)
            ∧ Shape.height ((alignShapes "vertical_distribute" items).1 !!! i)
              = Shape.height (items !!! i)).
Proof.
  intros Hlen. split.
  - rewrite alignShapes_horizontal_distribute by done. cbn [fst].
    split; [apply place_loop_length|]. intros i.
    apply (place_loop_frame Shape.set_left Shape.width _ same_but_left);
      [apply same_but_left_refl|apply same_but_left_trans|done].
  - rewrite alignShapes_vertical_distribute by done. cbn [fst].
    split; [apply place_loop_length|]. intros i.
    apply (place_loop_frame Shape.set_top Shape.height _ same_but_top);
      [apply same_but_top_refl|apply same_but_top_trans|done].
Qed.

Lemma alignShapes_distribute_frame_witness :
  (2 ≤ length Wabc)%nat
  ∧ Shape.top ((alignShapes "horizontal_distribute" Wabc).1 !!! 0%nat)
    = Shape.top (Wabc !!! 0%nat)
  ∧ Shape.left ((alignShapes "vertical_distribute" Wabc).1 !!! 2%nat)
    = Shape.left (Wabc !!! 2%nat).
Proof.
  assert (2 ≤ length Wabc)%nat as H by (cbn; lia).
  destruct (alignShapes_distribute_frame Wabc H) as ((_ & H1) & (_ & H2)).
  split; [exact H|]. split; [apply (H1 0%nat)|apply (H2 2%nat)].
Defined.

(** The ordered variant, by contrast, also re-centres on the other axis. *)
Example arrange_horizontal_distribute_changes_top :
  Shape.top <$> (arrangeShapesInOrder ["a"; "b"; "c"] "horizontal_distribute" Wabc).1
  = [50; 50; 50]
  ∧ Shape.top <$> Wabc = [10; 50; 90].
Proof. split; compute_done. Qed.

(** * Further properties of the layout functions *)

(** ** The centring modes of [alignShapes] *)

(** X1: For at least 2 shapes, [vertical_center] sets each shape's top to
    [avgCenterY - height/2], computed in binary64, where [avgCenterY] is the
    sum of the tops and half heights of all shapes, accumulated in
    selection order, divided by their number; it leaves every id, left,
    width and height unchanged. *)
Theorem alignShapes_vertical_center_spec (items : heap) :
  (2 ≤ length items)%nat →
  length (alignShapes "vertical_center" items).1 = length items ∧
  ∀ i s, items !! i = Some s →
    ∃ s', (alignShapes "vertical_center" items).1 !! i = Some s'
          ∧ Shape.top s' = avgCenterY items - Shape.height s / 2
          ∧ Shape.id s' = Shape.id s
          ∧ Shape.left s' = Shape.left s
          ∧ Shape.width s' = Shape.width s
          ∧ Shape.height s' = Shape.height s.
Proof.
  intros Hlen. rewrite alignShapes_vertical_center_fmap by done.
  split; [by rewrite length_fmap|].
  intros i s Hs. eexists. rewrite list_lookup_fmap, Hs. split; [done|].
  by destruct s.
Qed.

Lemma alignShapes_vertical_center_spec_witness :
  (2 ≤ length P12)%nat
  ∧ ∃ s', (alignShapes "vertical_center" P12).1 !! 1%nat = Some s'
          ∧ Shape.top s' = avgCenterY P12 - Shape.height P2 / 2
          ∧ Shape.left s' = Shape.left P2.
Proof.
  assert (2 ≤ length P12)%nat as H by (cbn; lia).
  split; [exact H|].
  destruct (alignShapes_vertical_center_spec P12 H) as [_ Hs].
  destruct (Hs 1%nat P2 eq_refl) as (s' & H1 & H2 & _ & H3 & _).
  exists s'. auto.
Defined.



(** X3: For at least 2 shapes, the two centring modes commute, and after both
    every shape has its left at [avgCenterX - width/2] and its top at
    [avgCenterY - height/2], for the averages of the original shapes. *)
Theorem alignShapes_centers_commute (items : heap) :
  (2 ≤ length items)%nat →
  (alignShapes "vertical_center" (alignShapes "horizontal_center" items).1).1
  = (alignShapes "horizontal_center" (alignShapes "vertical_center" items).1).1
  ∧ ∀ i s, items !! i = Some s →
      (alignShapes "vertical_center" (alignShapes "horizontal_center" items).1).1 !! i
      = Some (Shape.mk (Shape.id s)
                (avgCenterX items - Shape.width s / 2)
                (avgCenterY items - Shape.height s / 2)
                (Shape.width s) (Shape.height s)).
Proof.
  intros Hlen.
  rewrite (alignShapes_horizontal_center_fmap items),
    (alignShapes_vertical_center_fmap items) by done.
  rewrite alignShapes_vertical_center_fmap, alignShapes_horizontal_center_fmap
    by (by rewrite length_fmap).
  rewrite avgCenterY_center_left, avgCenterX_center_top.
  rewrite <- !list_fmap_compose.
  split.
  - apply list_fmap_ext. intros i s _. cbn. by rewrite center_left_center_top.
  - intros i s Hs. by rewrite list_lookup_fmap, Hs.
Qed.

Lemma alignShapes_centers_commute_witness :
  (2 ≤ length P12)%nat
  ∧ (alignShapes "vertical_center" (alignShapes "horizontal_center" P12).1).1
    = (alignShapes "horizontal_center" (alignShapes "vertical_center" P12).1).1.
Proof.
  assert (2 ≤ length P12)%nat as H by (cbn; lia).
  split; [exact H|]. exact (proj1 (alignShapes_centers_commute P12 H)).
Defined.

(** ** The distributing modes of [alignShapes] *)

(** X4: For at least 2 shapes, [vertical_distribute] visits the shapes in an
    order that, when no top is NaN, is the stable ascending order of their
    current tops; it puts the first at the margin 40 and every next one at
    the previous top plus (the previous height plus [gap]), with
    [gap = (540 - 2*40 - sum of heights) / (count - 1)] and the heights
    summed in selection order; it changes no height.  All operations are
    those of binary64, associated as in the source. *)
Theorem alignShapes_vertical_distribute_spec (items : heap) :
  (2 ≤ length items)%nat →
  let sorted :=
    sort (λ a b, Shape.top (items !!! a) - Shape.top (items !!! b)) (refs_of items) in
  let gap :=
    (540 - 2 * 40 - sum_list (Shape.height <$> items)) / (length_num items - 1) in
  let final := (alignShapes "vertical_distribute" items).1 in
  sorted ≡ₚ refs_of items
  ∧ ((∀ s, s ∈ items → is_nan (Shape.top s) = false) →
     StronglySorted (stable_lt (λ r, Shape.top (items !!! r))) sorted)
  ∧ (∃ first, sorted !! 0%nat = Some first ∧ Shape.top (final !!! first) = 40)
  ∧ (∀ k prev next, sorted !! k = Some prev → sorted !! S k = Some next →
       Shape.top (final !!! next)
       = Shape.top (final !!! prev) + (Shape.height (items !!! prev) + gap))
  ∧ length final = length items
  ∧ (∀ i, Shape.height (final !!! i) = Shape.height (items !!! i)).
Proof.
  intros Hlen sorted gap final.
  assert (final = (place_loop Shape.set_top Shape.height gap sorted (40, items)).2)
    as Hfinal.
  { subst final. rewrite alignShapes_vertical_distribute by done. cbn [fst].
    subst gap. unfold distribute_gap. by rewrite length_num_fmap. }
  assert (∀ k r, sorted !! k = Some r →
    final !!! r = Shape.set_top (running Shape.height gap items sorted 40 k) (items !!! r))
    as Hnth.
  { intros k r Hk. rewrite Hfinal. apply place_loop_nth; try done.
    - apply sorted_refs_NoDup.
    - apply sorted_refs_valid. }
  split; [apply sort_Permutation|].
  split; [apply (sorted_refs_sorted Shape.top)|].
  split.
  { destruct sorted as [|first rest] eqn:Hsorted.
    - pose proof (Permutation_length (sort_Permutation
        (λ a b, Shape.top (items !!! a) - Shape.top (items !!! b)) (refs_of items))) as HL.
      fold sorted in HL. rewrite Hsorted in HL. unfold refs_of in HL.
      rewrite length_seq in HL. cbn in HL. lia.
    - exists first. split; [done|]. by rewrite (Hnth 0%nat first). }
  split.
  { intros k prev next Hprev Hnext.
    rewrite (Hnth _ _ Hnext), (Hnth _ _ Hprev). cbn [Shape.top Shape.set_top].
    by apply running_S. }
  split; [by rewrite Hfinal, place_loop_length|].
  intros i. rewrite Hfinal.
  by destruct (place_loop_frame Shape.set_top Shape.height gap same_but_top
            sorted 40 items i same_but_top_refl same_but_top_trans
            (λ c s, ltac:(done)))
    as (_ & _ & _ & ?).
Qed.

Lemma alignShapes_vertical_distribute_spec_witness :
  (2 ≤ length Wabc)%nat
  ∧ StronglySorted (stable_lt (λ r, Shape.top (Wabc !!! r)))
      (sort (λ a b, Shape.top (Wabc !!! a) - Shape.top (Wabc !!! b)) (refs_of Wabc))
  ∧ length (alignShapes "vertical_distribute" Wabc).1 = length Wabc
  ∧ (∀ i, Shape.height ((alignShapes "vertical_distribute" Wabc).1 !!! i)
          = Shape.height (Wabc !!! i)).
Proof.
  assert (2 ≤ length Wabc)%nat as H by (cbn; lia).
  split; [exact H|].
  destruct (alignShapes_vertical_distribute_spec Wabc H) as (_ & Hs & _ & _ & H1 & H2).
  split; [|split; [exact H1|exact H2]].
  apply Hs. intros s Hin. unfold Wabc in Hin. rewrite !elem_of_cons, elem_of_nil in Hin.
  destruct Hin as [->|[->|[->|[]]]]; reflexivity.
Defined.

(** The additions round here too: on [Rabcd] (heights 1, 1, 53, 59) the
    bottom edge of the last shape ends just short of 540 - 40. *)
Example alignShapes_vertical_distribute_rounds :
  Shape.top <$> (alignShapes "vertical_distribute" Rabcd).1
  = [40; 156.33333333333331; 272.66666666666663; 440.99999999999994]
  ∧ (440.99999999999994 + 59 <? 500) = true.
Proof. split; compute_done. Qed.

(** ** What the two operations never change *)

(** X9: Whatever the mode and however many shapes are selected, [alignShapes]
    keeps the number of shapes and every shape's id, width and height, and
    writes to the console only the one line about too few shapes. *)
Theorem alignShapes_never_resizes (mode : string) (items : heap) :
  length (alignShapes mode items).1 = length items
  ∧ (∀ i, Shape.id ((alignShapes mode items).1 !!! i) = Shape.id (items !!! i)
          ∧ Shape.width ((alignShapes mode items).1 !!! i) = Shape.width (items !!! i)
          ∧ Shape.height ((alignShapes mode items).1 !!! i) = Shape.height (items !!! i))
  ∧ (alignShapes mode items).2
    = if decide (length items < 2)%nat
      then [console_log [Str "Need at least 2 shapes to align"]] else [].
Proof.
  destruct (decide (length items < 2)%nat) as [Hlt|Hge].
  { by rewrite alignShapes_insufficient. }
  assert (2 ≤ length items)%nat as Hlen by lia.
  destruct (String.eqb mode "horizontal_center") eqn:E1.
  { apply String.eqb_eq in E1 as ->. rewrite alignShapes_horizontal_center by done.
    cbn [fst snd]. split; [apply alter_loop_length|]. split; [|done]. intros i.
    apply (alter_loop_frame same_size);
      [apply same_size_refl|apply same_size_trans|done]. }
  destruct (String.eqb mode "vertical_center") eqn:E2.
  { apply String.eqb_eq in E2 as ->. rewrite alignShapes_vertical_center by done.
    cbn [fst snd]. split; [apply alter_loop_length|]. split; [|done]. intros i.
    apply (alter_loop_frame same_size);
      [apply same_size_refl|apply same_size_trans|done]. }
  destruct (String.eqb mode "horizontal_distribute") eqn:E3.
  { apply String.eqb_eq in E3 as ->. rewrite alignShapes_horizontal_distribute by done.
    cbn [fst snd]. split; [apply place_loop_length|]. split; [|done]. intros i.
    apply (place_loop_frame Shape.set_left Shape.width _ same_size);
      [apply same_size_refl|apply same_size_trans|done]. }
  destruct (String.eqb mode "vertical_distribute") eqn:E4.
  { apply String.eqb_eq in E4 as ->. rewrite alignShapes_vertical_distribute by done.
    cbn [fst snd]. split; [apply place_loop_length|]. split; [|done]. intros i.
    apply (place_loop_frame Shape.set_top Shape.height _ same_size);
      [apply same_size_refl|apply same_size_trans|done]. }
  rewrite alignShapes_unknown; [done| |done].
  unfold known_mode. by rewrite E1, E2, E3, E4.
Qed.

(** X10: Whatever the mode and the order list, [arrangeShapesInOrder] keeps the
    number of shapes and every shape's id, width and height, and leaves
    every shape that the order list does not resolve to exactly as it was. *)
Theorem arrangeShapesInOrder_frame (shapeIds : list string) (mode : string) (items : heap) :
  length (arrangeShapesInOrder shapeIds mode items).1 = length items
  ∧ (∀ i, Shape.id ((arrangeShapesInOrder shapeIds mode items).1 !!! i)
            = Shape.id (items !!! i)
          ∧ Shape.width ((arrangeShapesInOrder shapeIds mode items).1 !!! i)
            = Shape.width (items !!! i)
          ∧ Shape.height ((arrangeShapesInOrder shapeIds mode items).1 !!! i)
            = Shape.height (items !!! i))
  ∧ (∀ r, r ∉ orderedShapes items shapeIds →
       (arrangeShapesInOrder shapeIds mode items).1 !! r = items !! r).
Proof.
  destruct (decide (length (orderedShapes items shapeIds) < 2)%nat) as [Hlt|Hge].
  { by rewrite arrange_insufficient. }
  assert (2 ≤ length (orderedShapes items shapeIds))%nat as Hlen by lia.
  destruct (String.eqb mode "horizontal_center") eqn:E1.
  { apply String.eqb_eq in E1 as ->. rewrite arrange_horizontal_center by done.
    cbn [fst]. split; [apply alter_loop_length|]. split.
    - intros i. apply (alter_loop_frame same_size);
        [apply same_size_refl|apply same_size_trans|done].
    - intros r Hr. apply alter_loop_notin; [apply center_left_idemp|done]. }
  destruct (String.eqb mode "vertical_center") eqn:E2.
  { apply String.eqb_eq in E2 as ->. rewrite arrange_vertical_center by done.
    cbn [fst]. split; [apply alter_loop_length|]. split.
    - intros i. apply (alter_loop_frame same_size);
        [apply same_size_refl|apply same_size_trans|done].
    - intros r Hr. apply alter_loop_notin; [apply center_top_idemp|done]. }
  destruct (String.eqb mode "horizontal_distribute") eqn:E3.
  { apply String.eqb_eq in E3 as ->. rewrite arrange_horizontal_distribute by done.
    cbn [fst]. split; [apply place_loop_length|]. split.
    - intros i. apply (place_loop_frame _ Shape.width _ same_size);
        [apply same_size_refl|apply same_size_trans|done].
    - intros r Hr. by apply place_loop_notin. }
  destruct (String.eqb mode "vertical_distribute") eqn:E4.
  { apply String.eqb_eq in E4 as ->. rewrite arrange_vertical_distribute by done.
    cbn [fst]. split; [apply place_loop_length|]. split.
    - intros i. apply (place_loop_frame _ Shape.height _ same_size);
        [apply same_size_refl|apply same_size_trans|done].
    - intros r Hr. by apply place_loop_notin. }
  rewrite arrange_unknown; [done|done|].
  unfold known_mode. by rewrite E1, E2, E3, E4.
Qed.

(** ** The ordered operation in its other modes *)

(** X11: When the order list resolves to at least 2 shapes, the ordered
    [horizontal_center] sets the left of every resolved shape to
    [avgCenterX - width/2], computed in binary64, and leaves its top
    unchanged, and the ordered [vertical_center] sets the top of every
    resolved shape to [avgCenterY - height/2] and leaves its left unchanged;
    the averages are taken over the resolved shapes in the sequence of the
    order list, an identifier named more than once counting as often. *)
Theorem arrangeShapesInOrder_center_spec (items : heap) (shapeIds : list string) :
  (2 ≤ length (orderedShapes items shapeIds))%nat →
  (∀ r, r ∈ orderedShapes items shapeIds →
     Shape.left ((arrangeShapesInOrder shapeIds "horizontal_center" items).1 !!! r)
     = avgCenterX ((λ r', items !!! r') <$> orderedShapes items shapeIds)
       - Shape.width (items !!! r) / 2
     ∧ Shape.top ((arrangeShapesInOrder shapeIds "horizontal_center" items).1 !!! r)
       = Shape.top (items !!! r))
  ∧ (∀ r, r ∈ orderedShapes items shapeIds →
     Shape.top ((arrangeShapesInOrder shapeIds "vertical_center" items).1 !!! r)
     = avgCenterY ((λ r', items !!! r') <$> orderedShapes items shapeIds)
       - Shape.height (items !!! r) / 2
     ∧ Shape.left ((arrangeShapesInOrder shapeIds "vertical_center" items).1 !!! r)
       = Shape.left (items !!! r)).
Proof.
  intros Hlen. split; intros r Hr.
  - rewrite arrange_horizontal_center by done. cbn [fst].
    pose proof (orderedShapes_valid _ _ _ Hr) as Hv.
    rewrite (list_lookup_total_correct _ r (center_left
      (avgCenterX ((λ r', items !!! r') <$> orderedShapes items shapeIds))
      (items !!! r))); [done|].
    rewrite alter_loop_lookup, decide_True by (done || apply center_left_idemp).
    by rewrite (list_lookup_lookup_total_lt items r).
  - rewrite arrange_vertical_center by done. cbn [fst].
    pose proof (orderedShapes_valid _ _ _ Hr) as Hv.
    rewrite (list_lookup_total_correct _ r (center_top
      (avgCenterY ((λ r', items !!! r') <$> orderedShapes items shapeIds))
      (items !!! r))); [done|].
    rewrite alter_loop_lookup, decide_True by (done || apply center_top_idemp).
    by rewrite (list_lookup_lookup_total_lt items r).
Qed.

Lemma arrangeShapesInOrder_center_spec_witness :
  (2 ≤ length (orderedShapes Wabc ["c"; "a"; "c"]))%nat
  ∧ (∀ r, r ∈ orderedShapes Wabc ["c"; "a"; "c"] →
       Shape.left ((arrangeShapesInOrder ["c"; "a"; "c"] "horizontal_center" Wabc).1 !!! r)
       = avgCenterX ((λ r', Wabc !!! r') <$> orderedShapes Wabc ["c"; "a"; "c"])
         - Shape.width (Wabc !!! r) / 2
       ∧ Shape.top ((arrangeShapesInOrder ["c"; "a"; "c"] "horizontal_center" Wabc).1 !!! r)
         = Shape.top (Wabc !!! r)).
Proof.
  assert (2 ≤ length (orderedShapes Wabc ["c"; "a"; "c"]))%nat as H
    by (vm_compute; lia).
  split; [exact H|].
  exact (proj1 (arrangeShapesInOrder_center_spec Wabc ["c"; "a"; "c"] H)).
Defined.

(** On [Wabc] with the order list [c, a, c] the lefts round: they end at
    236.66666666666663 and 731.66666666666663. *)
Example arrangeShapesInOrder_center_rounds :
  Shape.left <$> (arrangeShapesInOrder ["c"; "a"; "c"] "horizontal_center" Wabc).1
  = [236.66666666666663; 300; 731.66666666666663].
Proof. compute_done. Qed.

(** X12: When the order list resolves to at least 2 pairwise distinct shapes,
    the ordered [vertical_distribute] puts the first resolved shape at top
    40 and every next one at the top of the shape before it in the order
    list plus (that shape's height plus [gap]), with
    [gap = (540 - 2*40 - sum of heights) / (count - 1)], whatever the
    original tops and the sign of the gap: the k-th resolved shape gets the
    value [currentTop k] that k such additions build up from 40.  The final
    tops increase strictly along the order list if and only if each of
    these additions but the last increases the running top. *)
Theorem arrange_vertical_distribute_order (items : heap) (shapeIds : list string) :
  let ordered := orderedShapes items shapeIds in
  let gap :=
    (540 - 2 * 40 - sum_list ((λ r, Shape.height (items !!! r)) <$> ordered))
    / (length_num ordered - 1) in
  let final := (arrangeShapesInOrder shapeIds "vertical_distribute" items).1 in
  let currentTop := running Shape.height gap items ordered 40 in
  (2 ≤ length ordered)%nat →
  NoDup ordered →
  (∀ k r, ordered !! k = Some r → Shape.top (final !!! r) = currentTop k)
  ∧ (∀ first, ordered !! 0%nat = Some first → Shape.top (final !!! first) = 40)
  ∧ (∀ k prev next, ordered !! k = Some prev → ordered !! S k = Some next →
       Shape.top (final !!! next)
       = Shape.top (final !!! prev) + (Shape.height (items !!! prev) + gap))
  ∧ ((∀ k k' a b, (k < k')%nat → ordered !! k = Some a → ordered !! k' = Some b →
        (Shape.top (final !!! a) <? Shape.top (final !!! b)) = true)
     ↔ (∀ k r, (S k < length ordered)%nat → ordered !! k = Some r →
          (currentTop k <? currentTop k + (Shape.height (items !!! r) + gap)) = true)).
Proof.
  intros ordered gap final currentTop Hlen Hnd.
  assert (gap = distribute_gap 540 ((λ r, Shape.height (items !!! r)) <$> ordered))
    as Hgap by (subst gap; unfold distribute_gap; by rewrite length_num_fmap).
  assert (final = distribute_final
      (place_top_centered (avgCenterX ((λ r, items !!! r) <$> ordered)))
      Shape.height 540 ordered items) as Hfinal
    by (subst final; by rewrite arrange_vertical_distribute).
  assert (∀ k r, ordered !! k = Some r → Shape.top (final !!! r) = currentTop k)
    as Hnth.
  { intros k r Hk. subst currentTop. rewrite Hfinal, Hgap.
    apply (distribute_final_coord _ Shape.height Shape.top); try done.
    apply orderedShapes_valid. }
  split; [done|].
  split; [intros first Hfirst; by rewrite (Hnth _ _ Hfirst)|].
  split.
  { intros k prev next Hprev Hnext. rewrite (Hnth _ _ Hnext), (Hnth _ _ Hprev).
    by apply running_S. }
  split.
  - intros Hall k r Hk Hr.
    destruct (lookup_lt_is_Some_2 ordered (S k)) as [r' Hr']; [lia|].
    pose proof (Hall k (S k) r r' (Nat.lt_succ_diag_r k) Hr Hr') as H.
    rewrite (Hnth _ _ Hr), (Hnth _ _ Hr') in H. subst currentTop. cbv beta in *.
    by rewrite (running_S _ _ _ _ _ _ _ Hr) in H.
  - intros Hstep k k' a b Hk Ha Hb. rewrite Hfinal.
    apply (distribute_final_increasing
             (place_top_centered (avgCenterX ((λ r, items !!! r) <$> ordered)))
             Shape.height Shape.top 540 items ordered
             (λ _ _, eq_refl) (λ _ _, eq_refl) Hnd (orderedShapes_valid _ _) k k');
      try done.
    intros j r Hj Hr. cbv zeta. rewrite <- Hgap. by apply Hstep.
Qed.

Lemma arrange_vertical_distribute_order_witness :
  ((Shape.top ((arrangeShapesInOrder ["C"; "A"; "B"] "vertical_distribute" ABC).1 !!! 2%nat)
    <? Shape.top ((arrangeShapesInOrder ["C"; "A"; "B"] "vertical_distribute" ABC).1 !!! 0%nat))
   = true
   ∧ (Shape.top ((arrangeShapesInOrder ["C"; "A"; "B"] "vertical_distribute" ABC).1 !!! 0%nat)
      <? Shape.top ((arrangeShapesInOrder ["C"; "A"; "B"] "vertical_distribute" ABC).1 !!! 1%nat))
     = true)
  ∧ Shape.top <$> (arrangeShapesInOrder ["C"; "A"; "B"] "vertical_distribute" ABC).1
    = [245; 450; 40].
Proof.
  assert (orderedShapes ABC ["C"; "A"; "B"] = [2; 0; 1]%nat) as Ho
    by (vm_compute; reflexivity).
  split; [|compute_done].
  destruct (arrange_vertical_distribute_order ABC ["C"; "A"; "B"])
    as (_ & _ & _ & Hlt).
  - rewrite Ho. cbn. lia.
  - rewrite Ho. compute_done.
  - rewrite Ho in Hlt.
    assert (∀ k k' a b, (k < k')%nat → [2; 0; 1]%nat !! k = Some a →
              [2; 0; 1]%nat !! k' = Some b →
              (Shape.top ((arrangeShapesInOrder ["C"; "A"; "B"]
                             "vertical_distribute" ABC).1 !!! a)
               <? Shape.top ((arrangeShapesInOrder ["C"; "A"; "B"]
                                "vertical_distribute" ABC).1 !!! b)) = true) as Hlt'.
    { apply (proj2 Hlt). intros k r Hk Hr.
      destruct k as [|[|k]]; cbn in Hk, Hr; [injection Hr as <-..|lia]; reflexivity. }
    split; [apply (Hlt' 0 1)%nat|apply (Hlt' 1 2)%nat]; (lia || reflexivity).
Defined.

(** ** The identifier map *)

Lemma shapeMap_snoc (items : heap) (s : Shape.t) :
  shapeMap (items ++ [s]) = <[Shape.id s := length items]> (shapeMap items).
Proof.
  unfold shapeMap, refs_of. rewrite length_app. cbn [length].
  rewrite Nat.add_1_r, seq_S, fold_left_app. cbn [fold_left Nat.add].
  rewrite (list_lookup_total_middle items [] s (length items)) by done.
  f_equal. apply fold_left_ext_in. intros r m Hr.
  apply elem_of_seq in Hr. by rewrite lookup_total_app_l by lia.
Qed.

Lemma shapeMap_lookup_Some (items : heap) (id : string) (r : ref) :
  shapeMap items !! id = Some r ↔
  (r < length items)%nat ∧ Shape.id (items !!! r) = id
  ∧ ∀ r', (r < r' < length items)%nat → Shape.id (items !!! r') ≠ id.
Proof.
  revert r. induction items as [|s items IH] using rev_ind; intros r.
  - cbn. rewrite lookup_empty. split; [done|]. intros [? _]. lia.
  - rewrite shapeMap_snoc, length_app. cbn [length].
    destruct (decide (Shape.id s = id)) as [Heq|Hne].
    + rewrite Heq, lookup_insert_eq. split.
      * intros [= <-]. split; [lia|].
        split; [by rewrite list_lookup_total_middle|]. lia.
      * intros (Hr & Hid & Hlast).
        destruct (decide (r = length items)) as [->|Hr']; [done|].
        destruct (Hlast (length items)); [lia|].
        by rewrite list_lookup_total_middle.
    + rewrite lookup_insert_ne, IH by done. split.
      * intros (Hr & Hid & Hlast). split; [lia|].
        split; [by rewrite lookup_total_app_l|].
        intros r' Hr'. destruct (decide (r' = length items)) as [->|?].
        -- by rewrite list_lookup_total_middle.
        -- rewrite lookup_total_app_l by lia. apply Hlast. lia.
      * intros (Hr & Hid & Hlast).
        destruct (decide (r = length items)) as [->|?].
        { by rewrite list_lookup_total_middle in Hid. }
        split; [lia|]. split; [by rewrite lookup_total_app_l in Hid by lia|].
        intros r' Hr'. specialize (Hlast r').
        rewrite lookup_total_app_l in Hlast by lia. apply Hlast. lia.
Qed.

Lemma shapeMap_lookup_None (items : heap) (id : string) :
  shapeMap items !! id = None ↔ ∀ s, s ∈ items → Shape.id s ≠ id.
Proof.
  induction items as [|s items IH] using rev_ind.
  - cbn. rewrite lookup_empty. split; [|done]. intros _ s Hs.
    by apply elem_of_nil in Hs.
  - rewrite shapeMap_snoc.
    destruct (decide (Shape.id s = id)) as [Heq|Hne].
    + rewrite Heq, lookup_insert_eq. split; [done|]. intros H.
      destruct (H s); [|done]. apply elem_of_app. right.
      by apply list_elem_of_singleton.
    + rewrite lookup_insert_ne, IH by done. split.
      * intros H s' [Hs'|Hs']%elem_of_app; [by apply H|].
        apply list_elem_of_singleton in Hs' as ->. done.
      * intros H s' Hs'. apply H, elem_of_app. by left.
Qed.

(** X14: The map sends an identifier to the last shape that carries it, and to
    nothing exactly when no shape carries it. *)
Theorem shapeMap_lookup_spec (items : heap) (id : string) :
  (∀ r, shapeMap items !! id = Some r ↔
     (r < length items)%nat ∧ Shape.id (items !!! r) = id
     ∧ ∀ r', (r < r' < length items)%nat → Shape.id (items !!! r') ≠ id)
  ∧ (shapeMap items !! id = None ↔ ∀ s, s ∈ items → Shape.id s ≠ id).
Proof.
  split; [intros r; apply shapeMap_lookup_Some|apply shapeMap_lookup_None].
Qed.

Lemma shapeMap_lookup_id (items : heap) (r : ref) (s : Shape.t) :
  NoDup (Shape.id <$> items) → items !! r = Some s →
  shapeMap items !! Shape.id s = Some r.
Proof.
  intros Hnd Hr. apply shapeMap_lookup_Some.
  pose proof (lookup_lt_Some _ _ _ Hr) as Hlen.
  split; [done|]. split; [by rewrite (list_lookup_total_correct _ _ _ Hr)|].
  intros r' Hr' Heq.
  assert ((Shape.id <$> items) !! r = Some (Shape.id s)) as H1
    by by rewrite list_lookup_fmap, Hr.
  assert ((Shape.id <$> items) !! r' = Some (Shape.id s)) as H2.
  { rewrite list_lookup_fmap, (list_lookup_lookup_total_lt items r') by lia.
    cbn. by rewrite Heq. }
  pose proof (NoDup_lookup _ _ _ _ Hnd H1 H2). lia.
Qed.

(** ** Resolving an order list *)

(** X15: Every identifier of the order list is either resolved or warned about,
    once each, and the identifiers of the resolved shapes are the
    identifiers of the order list that some shape carries, in the same
    sequence. *)
Theorem orderedShapes_accounting (items : heap) (shapeIds : list string) :
  (length (orderedShapes items shapeIds) + length (warnings items shapeIds)
   = length shapeIds)%nat
  ∧ (λ r, Shape.id (items !!! r)) <$> orderedShapes items shapeIds
    = filter (λ id, id ∈ Shape.id <$> items) shapeIds
  ∧ warnings items shapeIds
    = warning_for <$> filter (λ id, id ∉ Shape.id <$> items) shapeIds.
Proof.
  rewrite orderedShapes_omap, warnings_filter.
  induction shapeIds as [|id ids (IH1 & IH2 & IH3)]; [done|].
  rewrite !filter_cons. cbn [omap list_omap].
  destruct (shapeMap items !! id) as [r|] eqn:Hid.
  - apply shapeMap_lookup in Hid as Hr. destruct Hr as [Hlen Hr].
    assert (id ∈ Shape.id <$> items) as Hex.
    { apply list_elem_of_fmap. exists (items !!! r). split; [done|].
      apply list_elem_of_lookup. exists r. by apply list_lookup_lookup_total_lt. }
    rewrite decide_False by done. rewrite decide_True by done.
    rewrite decide_False by (by intros H).
    split; [cbn; lia|]. split; [|done]. cbn. by rewrite Hr, IH2.
  - assert (id ∉ Shape.id <$> items) as Hno.
    { intros (s & -> & Hs)%list_elem_of_fmap.
      by apply (proj1 (shapeMap_lookup_None items (Shape.id s)) Hid s). }
    rewrite decide_True by done. rewrite decide_False by done.
    rewrite decide_True by done.
    split; [cbn in *; lia|]. split; [done|]. cbn. by rewrite IH3.
Qed.

Lemma orderedShapes_of_ids (items : heap) (refs : list ref) :
  NoDup (Shape.id <$> items) →
  (∀ r, r ∈ refs → (r < length items)%nat) →
  orderedShapes items ((λ r, Shape.id (items !!! r)) <$> refs) = refs
  ∧ warnings items ((λ r, Shape.id (items !!! r)) <$> refs) = [].
Proof.
  intros Hnd Hval. rewrite orderedShapes_omap, warnings_filter.
  induction refs as [|r refs IH]; [done|].
  assert (shapeMap items !! Shape.id (items !!! r) = Some r) as Hr.
  { apply shapeMap_lookup_id; [done|].
    apply list_lookup_lookup_total_lt, Hval, elem_of_cons. by left. }
  destruct IH as [IH1 IH2].
  { intros r' Hr'. apply Hval, elem_of_cons. by right. }
  rewrite fmap_cons, filter_cons. cbn [omap list_omap]. rewrite Hr.
  rewrite decide_False by done. by rewrite IH1, IH2.
Qed.

(** X16: When the identifiers of the shapes are pairwise distinct, looking up
    the identifier of a shape in the map gives that shape back, and an
    order list that names shapes by their identifiers resolves to exactly
    those shapes, in the same sequence and without a warning. *)
Theorem orderedShapes_round_trip (items : heap) (refs : list ref) :
  NoDup (Shape.id <$> items) →
  (∀ r, r ∈ refs → (r < length items)%nat) →
  (∀ r s, items !! r = Some s → shapeMap items !! Shape.id s = Some r)
  ∧ orderedShapes items ((λ r, Shape.id (items !!! r)) <$> refs) = refs
  ∧ warnings items ((λ r, Shape.id (items !!! r)) <$> refs) = [].
Proof.
  intros Hnd Hval. split; [intros r s; by apply shapeMap_lookup_id|].
  by apply orderedShapes_of_ids.
Qed.

Lemma orderedShapes_round_trip_witness :
  orderedShapes ABC ((λ r, Shape.id (ABC !!! r)) <$> [2; 0; 1]%nat) = [2; 0; 1]%nat
  ∧ warnings ABC ((λ r, Shape.id (ABC !!! r)) <$> [2; 0; 1]%nat) = [].
Proof.
  apply (orderedShapes_round_trip ABC [2; 0; 1]%nat).
  - compute_done.
  - intros r Hr. rewrite !elem_of_cons, elem_of_nil in Hr.
    destruct Hr as [->|[->|[->|[]]]]; cbn; lia.
Defined.

(** ** The ordered and the unordered distribution agree *)

(** X17: When the identifiers of at least 2 shapes are pairwise distinct and
    the shapes are already selected in the stable ascending order of their
    lefts (the sort of [horizontal_distribute] leaves the selection as it
    is), the ordered [horizontal_distribute] whose order list names the
    shapes in that sequence gives every shape exactly the left that the
    unordered [horizontal_distribute] gives it. *)
Theorem arrange_sorted_agrees_with_align (items : heap) :
  (2 ≤ length items)%nat →
  NoDup (Shape.id <$> items) →
  sort (λ a b, Shape.left (items !!! a) - Shape.left (items !!! b)) (refs_of items)
  = refs_of items →
  ∀ i, Shape.left
         ((arrangeShapesInOrder (Shape.id <$> items) "horizontal_distribute" items).1 !!! i)
       = Shape.left ((alignShapes "horizontal_distribute" items).1 !!! i).
Proof.
  intros Hlen Hnd Hsorted i.
  assert (orderedShapes items (Shape.id <$> items) = refs_of items) as Ho.
  { rewrite <- (fmap_refs_of Shape.id items).
    apply orderedShapes_of_ids; [done|]. intros r. apply refs_of_valid. }
  assert (length (refs_of items) = length items) as Hl
    by (unfold refs_of; apply length_seq).
  rewrite arrange_horizontal_distribute by (rewrite Ho; lia).
  rewrite alignShapes_horizontal_distribute by done. cbn [fst].
  rewrite Ho, Hsorted, (fmap_refs_of Shape.width).
  destruct (decide (i < length items)%nat) as [Hi|Hi].
  - apply refs_of_valid, list_elem_of_lookup in Hi as [k Hk].
    rewrite (place_loop_nth
               (place_left_centered (avgCenterY ((λ r, items !!! r) <$> refs_of items)))
               Shape.width _ (λ _ _, eq_refl) (refs_of items) _ _ k i);
      [|apply NoDup_seq|intros r; apply refs_of_valid|done].
    rewrite (place_loop_nth Shape.set_left Shape.width _ (λ _ _, eq_refl)
               (refs_of items) _ _ k i);
      [done|apply NoDup_seq|intros r; apply refs_of_valid|done].
  - by rewrite !list_lookup_total_alt, !lookup_ge_None_2
      by (rewrite place_loop_length; lia).
Qed.

Lemma arrange_sorted_agrees_with_align_witness :
  (2 ≤ length [shapeB; shapeC; shapeA])%nat
  ∧ Shape.left <$> (arrangeShapesInOrder ["B"; "C"; "A"] "horizontal_distribute"
                      [shapeB; shapeC; shapeA]).1
    = Shape.left <$> (alignShapes "horizontal_distribute" [shapeB; shapeC; shapeA]).1.
Proof.
  assert (2 ≤ length [shapeB; shapeC; shapeA])%nat as H by (cbn; lia).
  assert (NoDup (Shape.id <$> [shapeB; shapeC; shapeA])) as Hnd by compute_done.
  assert (sort (λ a b, Shape.left ([shapeB; shapeC; shapeA] !!! a)
                       - Shape.left ([shapeB; shapeC; shapeA] !!! b))
            (refs_of [shapeB; shapeC; shapeA])
          = refs_of [shapeB; shapeC; shapeA]) as Hs by (vm_compute; reflexivity).
  pose proof (arrange_sorted_agrees_with_align [shapeB; shapeC; shapeA] H Hnd Hs) as Hagree.
  split; [exact H|].
  apply list_eq_same_length with 3%nat; [vm_compute; reflexivity..|].
  intros i x y Hi. rewrite !list_lookup_fmap.
  rewrite !(list_lookup_lookup_total_lt _ i)
    by (destruct i as [|[|[|]]]; vm_compute; lia).
  cbn. change ["B"; "C"; "A"] with (Shape.id <$> [shapeB; shapeC; shapeA]).
  rewrite Hagree. congruence.
Defined.

(** Without that, the two can differ in the last place, because the widths
    are summed in different sequences: on [Q1234] the shapes ordered by
    their lefts are q2, q4, q1, q3, and the gap is 130.85999999999999 for
    the ordered operation and 130.86000000000001 for the unordered one. *)
Example arrange_sorted_can_differ_from_align :
  sort (λ a b, Shape.left (Q1234 !!! a) - Shape.left (Q1234 !!! b)) (refs_of Q1234)
  = [1; 3; 0; 2]%nat
  ∧ Shape.left <$> (alignShapes "horizontal_distribute" Q1234).1
    = [483.87; 40; 770.07000000000005; 193.36000000000001]
  ∧ Shape.left <$> (arrangeShapesInOrder ["q2"; "q4"; "q1"; "q3"]
                      "horizontal_distribute" Q1234).1
    = [483.87; 40; 770.06999999999994; 193.35999999999999].
Proof. repeat split; compute_done. Qed.

(** * The callers *)

Lemma requests_app (l k : list effect) : requests (l ++ k) = requests l ++ requests k.
Proof. apply omap_app. Qed.

Lemma requests_entries (out : list console_entry) : requests (effect_of_entry <$> out) = [].
Proof. induction out as [|[args|args] out IH]; [done|exact IH..]. Qed.

Lemma complaints_app (l k : list effect) :
  complaints (l ++ k) = complaints l ++ complaints k.
Proof. apply filter_app. Qed.

(** ** [alignWithAI] *)

(** X18: [alignWithAI] changes a selected shape only when at least 2 shapes are
    selected, the backend answers with a 2xx status and a body that parses,
    and the alignment type it names is one of the four modes; the shapes
    are then those of [alignShapes] and the returned string is the backend's
    explanation. *)
Theorem alignWithAI_moves_only_on_success (userMessage : string)
    (reply : fetch_outcome AlignResult.t) (selected : heap) :
  (alignWithAI userMessage reply selected).1.2 ≠ selected →
  (2 ≤ length selected)%nat
  ∧ ∃ response result,
      reply = fetch_resolves response
      ∧ (200 ≤ status response ≤ 299)%nat
      ∧ json response = inr result
      ∧ known_mode (AlignResult.alignment_type result) = true
      ∧ (alignWithAI userMessage reply selected).1.1 = AlignResult.explanation result
      ∧ (alignWithAI userMessage reply selected).1.2
        = (alignShapes (AlignResult.alignment_type result) selected).1.
Proof.
  unfold alignWithAI, alignWithAI_try.
  destruct (decide (length selected < 2)%nat) as [Hlt|Hge]; [done|].
  destruct reply as [e|response]; [done|].
  destruct (ok response) eqn:Hok; cbn [negb]; [|done].
  destruct (json response) as [e|result] eqn:Hjson; [done|].
  destruct (alignShapes (AlignResult.alignment_type result) selected) as [h out] eqn:Ha.
  cbn [fst snd]. intros Hh. split; [lia|].
  exists response, result. split; [done|].
  split; [by apply bool_decide_eq_true_1 in Hok|]. split; [done|].
  split; [|by rewrite Ha].
  destruct (known_mode (AlignResult.alignment_type result)) eqn:Hk; [done|].
  rewrite alignShapes_unknown in Ha by (done || lia). by injection Ha as <- _.
Qed.

Lemma alignWithAI_moves_only_on_success_witness :
  (alignWithAI "line them up"
     (reply_ok (AlignResult.mk "horizontal_center" "Centred.")) P12).1.2 ≠ P12
  ∧ (alignWithAI "line them up"
       (reply_ok (AlignResult.mk "horizontal_center" "Centred.")) P12).1.1 = "Centred.".
Proof.
  assert ((alignWithAI "line them up"
     (reply_ok (AlignResult.mk "horizontal_center" "Centred.")) P12).1.2 ≠ P12) as H
    by compute_done.
  split; [exact H|].
  destruct (alignWithAI_moves_only_on_success _ _ _ H)
    as (_ & response & result & Hr & _ & Hj & _ & -> & _).
  injection Hr as <-. cbn in Hj. by injection Hj as <-.
Defined.

(** X19: [alignWithAI] sends no request when fewer than 2 shapes are selected,
    and otherwise exactly one, to [/align], carrying the user's message and
    the number of selected shapes. *)
Theorem alignWithAI_requests (userMessage : string)
    (reply : fetch_outcome AlignResult.t) (selected : heap) :
  requests (alignWithAI userMessage reply selected).2
  = if decide (length selected < 2)%nat then []
    else [("https://localhost:8001/align",
           js_align_request userMessage (length selected))].
Proof.
  unfold alignWithAI, alignWithAI_try.
  destruct (decide (length selected < 2)%nat) as [Hlt|Hge]; [done|].
  destruct reply as [e|response]; [done|].
  destruct (ok response); cbn [negb]; [|done].
  destruct (json response) as [e|result]; [done|].
  destruct (alignShapes (AlignResult.alignment_type result) selected) as [h out].
  cbn [snd]. by rewrite requests_app, requests_entries.
Qed.

(** X20: When at least 2 shapes are selected, the outcome of [alignWithAI]
    is decided by the reply alone.  If [fetch] or the parsing of the body
    rejects, no shape changes and the returned string is "Error: " followed
    by the conversion of the thrown value; if the status is outside 200-299,
    no shape changes and the returned string is
    "Error: Error: Backend error: <status> - <body>"; otherwise the shapes
    are those of [alignShapes] and the returned string is the explanation. *)
Theorem alignWithAI_error_report (userMessage : string)
    (reply : fetch_outcome AlignResult.t) (selected : heap) :
  (2 ≤ length selected)%nat →
  match reply with
  | fetch_rejects e =>
      (alignWithAI userMessage reply selected).1
      = ("Error: " +:+ thrown_to_string e, selected)
  | fetch_resolves response =>
      if decide (200 ≤ status response ≤ 299)%nat then
        match json response with
        | inl e =>
            (alignWithAI userMessage reply selected).1
            = ("Error: " +:+ thrown_to_string e, selected)
        | inr result =>
            (alignWithAI userMessage reply selected).1
            = (AlignResult.explanation result,
               (alignShapes (AlignResult.alignment_type result) selected).1)
        end
      else
        (alignWithAI userMessage reply selected).1
        = ("Error: Error: Backend error: " +:+ pretty (status response)
           +:+ " - " +:+ text response, selected)
  end.
Proof.
  intros Hlen. unfold alignWithAI, alignWithAI_try.
  rewrite decide_False by lia.
  destruct reply as [e|response]; [done|]. unfold ok.
  destruct (decide (200 ≤ status response ≤ 299)%nat) as [Hok|Hok].
  - rewrite bool_decide_eq_true_2 by done. cbn [negb].
    destruct (json response) as [e|result]; [done|].
    by destruct (alignShapes (AlignResult.alignment_type result) selected).
  - rewrite bool_decide_eq_false_2 by done. cbn [negb]. done.
Qed.

Lemma alignWithAI_error_report_witness :
  (2 ≤ length P12)%nat
  ∧ (alignWithAI "line them up" reply_500 P12).1
    = ("Error: Error: Backend error: 500 - Internal Server Error", P12).
Proof.
  assert (2 ≤ length P12)%nat as H by (cbn; lia).
  split; [exact H|].
  exact (alignWithAI_error_report "line them up" reply_500 P12 H).
Defined.

(** X21: When the backend answers ok but names an alignment type outside the
    four modes, [alignWithAI] returns the backend's explanation as for a
    success although no shape has changed, and no line of the trace is a
    warning or an error. *)
Theorem alignWithAI_silent_no_op (userMessage : string)
    (response : Response AlignResult.t) (result : AlignResult.t) (selected : heap) :
  (2 ≤ length selected)%nat →
  (200 ≤ status response ≤ 299)%nat →
  json response = inr result →
  known_mode (AlignResult.alignment_type result) = false →
  (alignWithAI userMessage (fetch_resolves response) selected).1
  = (AlignResult.explanation result, selected)
  ∧ complaints (alignWithAI userMessage (fetch_resolves response) selected).2 = [].
Proof.
  intros Hlen Hok Hjson Hmode. unfold alignWithAI, alignWithAI_try, ok.
  rewrite decide_False by lia. rewrite bool_decide_eq_true_2 by done. cbn [negb].
  by rewrite Hjson, alignShapes_unknown.
Qed.

Lemma alignWithAI_silent_no_op_witness :
  (alignWithAI "spin them"
     (reply_ok (AlignResult.mk "rotate" "Rotated the shapes.")) P12).1
  = ("Rotated the shapes.", P12).
Proof.
  refine (proj1 (alignWithAI_silent_no_op "spin them"
    (mkResponse 200 EmptyString (inr (AlignResult.mk "rotate" "Rotated the shapes.")))
    (AlignResult.mk "rotate" "Rotated the shapes.") P12 _ _ eq_refl eq_refl));
    cbn; lia.
Defined.

(** ** [requestArrangement] *)

(** X22: [requestArrangement] changes a shape of the slide only when the backend
    answers with a 2xx status and a body that parses, the order it names
    resolves to at least 2 shapes and its alignment is one of the four
    modes; the shapes are then those of [arrangeShapesInOrder] and the
    returned string is the backend's explanation. *)
Theorem requestArrangement_moves_only_on_success (userMessage : string)
    (labeledShapes : list LabeledShape.t)
    (reply : fetch_outcome ArrangeResult.t) (items : heap) :
  (requestArrangement userMessage labeledShapes reply items).1.2 ≠ items →
  ∃ response result,
    reply = fetch_resolves response
    ∧ (200 ≤ status response ≤ 299)%nat
    ∧ json response = inr result
    ∧ (2 ≤ length (orderedShapes items (ArrangeResult.order result)))%nat
    ∧ known_mode (ArrangeResult.alignment result) = true
    ∧ (requestArrangement userMessage labeledShapes reply items).1.1
      = ArrangeResult.explanation result
    ∧ (requestArrangement userMessage labeledShapes reply items).1.2
      = (arrangeShapesInOrder (ArrangeResult.order result)
           (ArrangeResult.alignment result) items).1.
Proof.
  unfold requestArrangement, requestArrangement_try.
  destruct reply as [e|response]; [done|].
  destruct (ok response) eqn:Hok; cbn [negb]; [|done].
  destruct (json response) as [e|result] eqn:Hjson; [done|].
  destruct (arrangeShapesInOrder (ArrangeResult.order result)
              (ArrangeResult.alignment result) items) as [h out] eqn:Ha.
  cbn [fst snd]. intros Hh.
  exists response, result. split; [done|].
  split; [by apply bool_decide_eq_true_1 in Hok|]. split; [done|].
  assert (2 ≤ length (orderedShapes items (ArrangeResult.order result)))%nat as Hlen.
  { destruct (decide (length (orderedShapes items (ArrangeResult.order result)) < 2)%nat)
      as [Hlt|?]; [|lia].
    rewrite arrange_insufficient in Ha by done. by injection Ha as <- _. }
  split; [done|]. split; [|by rewrite Ha].
  destruct (known_mode (ArrangeResult.alignment result)) eqn:Hk; [done|].
  rewrite arrange_unknown in Ha by done. by injection Ha as <- _.
Qed.

Lemma requestArrangement_moves_only_on_success_witness :
  (requestArrangement "C then A then B" []
     (reply_ok (ArrangeResult.mk ["C"; "A"; "B"] "horizontal_distribute" "Done."))
     ABC).1.2 ≠ ABC
  ∧ (requestArrangement "C then A then B" []
       (reply_ok (ArrangeResult.mk ["C"; "A"; "B"] "horizontal_distribute" "Done."))
       ABC).1.1 = "Done.".
Proof.
  assert ((requestArrangement "C then A then B" []
     (reply_ok (ArrangeResult.mk ["C"; "A"; "B"] "horizontal_distribute" "Done."))
     ABC).1.2 ≠ ABC) as H by compute_done.
  split; [exact H|].
  destruct (requestArrangement_moves_only_on_success _ _ _ _ H)
    as (response & result & Hr & _ & Hj & _ & _ & -> & _).
  injection Hr as <-. cbn in Hj. by injection Hj as <-.
Defined.

(** X23: [requestArrangement] sends exactly one request, to [/arrange], with the
    user's message and the labeled shapes it was given, whatever they are:
    unlike [alignWithAI] it does not look at the number of shapes first. *)
Theorem requestArrangement_requests (userMessage : string)
    (labeledShapes : list LabeledShape.t)
    (reply : fetch_outcome ArrangeResult.t) (items : heap) :
  requests (requestArrangement userMessage labeledShapes reply items).2
  = [("https://localhost:8001/arrange",
      js_arrange_request userMessage labeledShapes)].
Proof.
  unfold requestArrangement, requestArrangement_try.
  destruct reply as [e|response]; [done|].
  destruct (ok response); cbn [negb]; [|done].
  destruct (json response) as [e|result]; [done|].
  destruct (arrangeShapesInOrder _ _ items) as [h out].
  cbn [snd]. by rewrite !requests_app, requests_entries.
Qed.

Lemma complaints_cons (e : effect) (l : list effect) :
  complaints (e :: l) = if is_complaint e then e :: complaints l else complaints l.
Proof. unfold complaints. rewrite filter_cons. by destruct (is_complaint e). Qed.

Lemma complaints_warnings (items : heap) (shapeIds : list string) :
  complaints (effect_of_entry <$> warnings items shapeIds)
  = effect_of_entry <$> warnings items shapeIds.
Proof.
  rewrite warnings_filter.
  induction (filter (λ id, shapeMap items !! id = None) shapeIds) as [|id ids IH];
    [done|].
  rewrite !fmap_cons. unfold complaints in *.
  rewrite filter_cons, decide_True by done. by rewrite IH.
Qed.

(** X24: When the backend answers ok but its order resolves to fewer than 2
    shapes, or its alignment is outside the four modes, [requestArrangement]
    returns the backend's explanation as for a success although no shape has
    changed; the only warnings or errors of the trace are the warnings about
    identifiers that match no shape. *)
Theorem requestArrangement_silent_no_op (userMessage : string)
    (labeledShapes : list LabeledShape.t)
    (response : Response ArrangeResult.t) (result : ArrangeResult.t) (items : heap) :
  (200 ≤ status response ≤ 299)%nat →
  json response = inr result →
  (length (orderedShapes items (ArrangeResult.order result)) < 2)%nat
  ∨ known_mode (ArrangeResult.alignment result) = false →
  (requestArrangement userMessage labeledShapes (fetch_resolves response) items).1
  = (ArrangeResult.explanation result, items)
  ∧ complaints
      (requestArrangement userMessage labeledShapes (fetch_resolves response) items).2
    = effect_of_entry <$> warnings items (ArrangeResult.order result).
Proof.
  intros Hok Hjson Hcase. unfold requestArrangement, requestArrangement_try, ok.
  rewrite bool_decide_eq_true_2 by done. cbn [negb]. rewrite Hjson.
  assert (∃ last,
    arrangeShapesInOrder (ArrangeResult.order result)
      (ArrangeResult.alignment result) items
    = (items, arrange_header (ArrangeResult.order result) (ArrangeResult.alignment result)
              ++ warnings items (ArrangeResult.order result)
              ++ [console_log [Str last]])) as [last ->].
  { destruct (decide (length (orderedShapes items (ArrangeResult.order result)) < 2)%nat)
      as [Hlt|Hge].
    - eexists. by apply arrange_insufficient.
    - destruct Hcase as [?|Hmode]; [lia|]. eexists. apply arrange_unknown; [lia|done]. }
  cbn [fst snd]. split; [done|].
  rewrite !fmap_app, !complaints_app, complaints_warnings.
  unfold arrange_header. cbn [fmap list_fmap effect_of_entry].
  rewrite !complaints_cons. cbn [is_complaint].
  change (complaints []) with (@nil effect). cbn [app]. apply app_nil_r.
Qed.

Lemma requestArrangement_silent_no_op_witness :
  (requestArrangement "put Z first" []
     (reply_ok (ArrangeResult.mk ["Z"; "A"] "horizontal_distribute" "Arranged."))
     ABC).1
  = ("Arranged.", ABC).
Proof.
  refine (proj1 (requestArrangement_silent_no_op "put Z first" []
    (mkResponse 200 EmptyString
       (inr (ArrangeResult.mk ["Z"; "A"] "horizontal_distribute" "Arranged.")))
    (ArrangeResult.mk ["Z"; "A"] "horizontal_distribute" "Arranged.") ABC
    _ eq_refl (or_introl _))).
  - cbn. lia.
  - vm_compute. lia.
Defined.
